(** * kdwsdl2cpp: the command-line front end and the pipeline it configures

    A shallow embedding of [kdwsdl2cpp/src/main.cpp] (option parsing,
    namespace-mapping files, generation mode, start of the compiler) and,
    for the stages whose code lives elsewhere in the repository, models
    written from the design document (Document Store, Namespace Mapper,
    Dependency Orderer, member rendering of the Code Generator).

    Text model.  [QString], [QByteArray] and the [char*] entries of [argv]
    are all represented by [string], the sequence of their bytes: the
    local-8-bit / UTF-8 decoding steps are the identity here.  Every
    character the program inspects ([@], [#], [=], [/], white space, the
    option names) is ASCII, so on well-formed UTF-8 without NUL bytes the
    byte view and the decoded view split, trim and compare the same way. *)

From Stdlib Require Import Ascii String ZArith Lia.
From stdpp Require Import base option list strings gmap fin_maps relations pretty stringmap.

Local Open Scope Z_scope.
Local Open Scope list_scope.

(** ** Qt text primitives used by [main] *)

Module QByteArray.

(** [ascii_isspace]: horizontal tab, line feed, vertical tab, form feed,
    carriage return and space. *)
Definition isspace (c : ascii) : bool :=
  let n := nat_of_ascii c in
  ((9 <=? n)%nat && (n <=? 13)%nat) || (n =? 32)%nat.

Fixpoint trim_left (s : string) : string :=
  match s with
  | EmptyString => EmptyString
  | String c s' => if isspace c then trim_left s' else s
  end.

Fixpoint trim_right (s : string) : string :=
  match s with
  | EmptyString => EmptyString
  | String c s' =>
      match trim_right s' with
      | EmptyString => if isspace c then EmptyString else String c EmptyString
      | t => String c t
      end
  end.

(** [QByteArray::trimmed()]: white space removed from both ends. *)
Definition trimmed (s : string) : string := trim_right (trim_left s).

End QByteArray.

Module QString.

Definition isEmpty (s : string) : bool :=
  match s with EmptyString => true | String _ _ => false end.

(** [QString::startsWith(QChar)]. *)
Definition startsWith (c : ascii) (s : string) : bool :=
  match s with
  | EmptyString => false
  | String c' _ => Ascii.eqb c' c
  end.

(** [QString::contains(QChar)]. *)
Fixpoint contains (sep : ascii) (s : string) : bool :=
  match s with
  | EmptyString => false
  | String c s' => Ascii.eqb c sep || contains sep s'
  end.

(** [split(sep, Qt::KeepEmptyParts)]: the fields between separators; a
    string with k separators has k+1 fields, the empty string has one. *)
Fixpoint split (sep : ascii) (s : string) : list string :=
  match s with
  | EmptyString => [EmptyString]
  | String c s' =>
      if Ascii.eqb c sep then EmptyString :: split sep s'
      else match split sep s' with
           | [] => [String c EmptyString]
           | f :: fs => String c f :: fs
           end
  end.

Fixpoint join (sep : ascii) (fs : list string) : string :=
  match fs with
  | [] => EmptyString
  | [f] => f
  | f :: fs' => f +:+ String sep (join sep fs')
  end.

(** [QString::section(sep, start, end)] with the default flags: negative
    positions count fields from the right; the selected fields are joined
    by the separator; an empty range gives the empty string. *)
Definition section (sep : ascii) (start end_ : Z) (s : string) : string :=
  let sections := split sep s in
  let n := Z.of_nat (List.length sections) in
  let start := if start <? 0 then start + n else start in
  let end_ := if end_ <? 0 then end_ + n else end_ in
  if (start >=? n) || (end_ <? 0) || (start >? end_) then EmptyString
  else
    let lo := Z.to_nat start in
    join sep (take (Z.to_nat (end_ + 1) - lo)%nat (drop lo sections)).

End QString.

Module QFileInfo.

(** [QFileInfo::fileName()]: the name without the path, that is, what
    follows the last [/]. *)
Definition fileName (path : string) : string :=
  QString.section "/" (-1) (-1) path.

End QFileInfo.

Module QIODevice.

(** The chunks that successive [readLine()] calls return until [atEnd()]:
    each runs up to and including the next line feed, the last one may
    lack it. *)
Fixpoint lines (s : string) : list string :=
  match s with
  | EmptyString => []
  | String c s' =>
      if Ascii.eqb c "010" then String c EmptyString :: lines s'
      else match lines s' with
           | [] => [String c EmptyString]
           | ln :: lns => String c ln :: lns
           end
  end.

End QIODevice.

(** ** Settings *)

Module Settings.

Inductive OptionalElementType := ENone | ERawPointer | EBoostOptional | EStdOptional.

(** The values [main] stores through the setters of [Settings::self()]. *)
Record t := mk {
  generateHeader : bool;
  generateImplementation : bool;
  headerFileName : string;
  implementationFileName : string;
  generateServerCode : bool;
  outputDirectory : string;
  wsdlFile : string;
  wantedService : string;
  exportDeclaration : string;
  nameSpace : string;
  namespaceMapping : gmap string string;
  optionalElementType : OptionalElementType;
  keepUnusedTypes : bool;
  importPathList : list string;
  useLocalFilesOnly : bool;
  helpOnMissing : bool;
  skipSync : bool;
  skipAsync : bool;
  skipAsyncJobs : bool
}.

End Settings.

(** ** The local variables of [main] *)

Record Locals := mkLocals {
  fileName : option string;
  outputFile : string;
  both : bool;
  impl : bool;
  outfileGiven : bool;
  server : bool;
  headerFile : string;
  serviceName : string;
  exportMacro : string;
  nameSpace : string;
  nsmapping : gmap string string;
  optionalElementType : Settings.OptionalElementType;
  keepUnusedTypes : bool;
  importPathList : list string;
  useLocalFilesOnly : bool;
  helpOnMissing : bool;
  skipAsync : bool;
  skipSync : bool;
  skipAsyncJobs : bool;
  pkcs12File : string;
  pkcs12Password : string
}.

Definition initial_locals : Locals :=
  {| fileName := None; outputFile := ""; both := false; impl := false;
     outfileGiven := false; server := false; headerFile := ""; serviceName := "";
     exportMacro := ""; nameSpace := ""; nsmapping := ∅;
     optionalElementType := Settings.ENone; keepUnusedTypes := false;
     importPathList := []; useLocalFilesOnly := false; helpOnMissing := false;
     skipAsync := false; skipSync := false; skipAsyncJobs := false;
     pkcs12File := ""; pkcs12Password := "" |}.

(** Assignments to one local. *)

Definition set_fileName (v : option string) (l : Locals) : Locals :=
  {| fileName := v; outputFile := outputFile l; both := both l; impl := impl l;
     outfileGiven := outfileGiven l; server := server l; headerFile := headerFile l;
     serviceName := serviceName l; exportMacro := exportMacro l; nameSpace := nameSpace l;
     nsmapping := nsmapping l; optionalElementType := optionalElementType l;
     keepUnusedTypes := keepUnusedTypes l; importPathList := importPathList l;
     useLocalFilesOnly := useLocalFilesOnly l; helpOnMissing := helpOnMissing l;
     skipAsync := skipAsync l; skipSync := skipSync l; skipAsyncJobs := skipAsyncJobs l;
     pkcs12File := pkcs12File l; pkcs12Password := pkcs12Password l |}.

Definition set_outputFile (v : string) (l : Locals) : Locals :=
  {| fileName := fileName l; outputFile := v; both := both l; impl := impl l;
     outfileGiven := outfileGiven l; server := server l; headerFile := headerFile l;
     serviceName := serviceName l; exportMacro := exportMacro l; nameSpace := nameSpace l;
     nsmapping := nsmapping l; optionalElementType := optionalElementType l;
     keepUnusedTypes := keepUnusedTypes l; importPathList := importPathList l;
     useLocalFilesOnly := useLocalFilesOnly l; helpOnMissing := helpOnMissing l;
     skipAsync := skipAsync l; skipSync := skipSync l; skipAsyncJobs := skipAsyncJobs l;
     pkcs12File := pkcs12File l; pkcs12Password := pkcs12Password l |}.

Definition set_both (v : bool) (l : Locals) : Locals :=
  {| fileName := fileName l; outputFile := outputFile l; both := v; impl := impl l;
     outfileGiven := outfileGiven l; server := server l; headerFile := headerFile l;
     serviceName := serviceName l; exportMacro := exportMacro l; nameSpace := nameSpace l;
     nsmapping := nsmapping l; optionalElementType := optionalElementType l;
     keepUnusedTypes := keepUnusedTypes l; importPathList := importPathList l;
     useLocalFilesOnly := useLocalFilesOnly l; helpOnMissing := helpOnMissing l;
     skipAsync := skipAsync l; skipSync := skipSync l; skipAsyncJobs := skipAsyncJobs l;
     pkcs12File := pkcs12File l; pkcs12Password := pkcs12Password l |}.

Definition set_impl (v : bool) (l : Locals) : Locals :=
  {| fileName := fileName l; outputFile := outputFile l; both := both l; impl := v;
     outfileGiven := outfileGiven l; server := server l; headerFile := headerFile l;
     serviceName := serviceName l; exportMacro := exportMacro l; nameSpace := nameSpace l;
     nsmapping := nsmapping l; optionalElementType := optionalElementType l;
     keepUnusedTypes := keepUnusedTypes l; importPathList := importPathList l;
     useLocalFilesOnly := useLocalFilesOnly l; helpOnMissing := helpOnMissing l;
     skipAsync := skipAsync l; skipSync := skipSync l; skipAsyncJobs := skipAsyncJobs l;
     pkcs12File := pkcs12File l; pkcs12Password := pkcs12Password l |}.

Definition set_outfileGiven (v : bool) (l : Locals) : Locals :=
  {| fileName := fileName l; outputFile := outputFile l; both := both l; impl := impl l;
     outfileGiven := v; server := server l; headerFile := headerFile l;
     serviceName := serviceName l; exportMacro := exportMacro l; nameSpace := nameSpace l;
     nsmapping := nsmapping l; optionalElementType := optionalElementType l;
     keepUnusedTypes := keepUnusedTypes l; importPathList := importPathList l;
     useLocalFilesOnly := useLocalFilesOnly l; helpOnMissing := helpOnMissing l;
     skipAsync := skipAsync l; skipSync := skipSync l; skipAsyncJobs := skipAsyncJobs l;
     pkcs12File := pkcs12File l; pkcs12Password := pkcs12Password l |}.

Definition set_server (v : bool) (l : Locals) : Locals :=
  {| fileName := fileName l; outputFile := outputFile l; both := both l; impl := impl l;
     outfileGiven := outfileGiven l; server := v; headerFile := headerFile l;
     serviceName := serviceName l; exportMacro := exportMacro l; nameSpace := nameSpace l;
     nsmapping := nsmapping l; optionalElementType := optionalElementType l;
     keepUnusedTypes := keepUnusedTypes l; importPathList := importPathList l;
     useLocalFilesOnly := useLocalFilesOnly l; helpOnMissing := helpOnMissing l;
     skipAsync := skipAsync l; skipSync := skipSync l; skipAsyncJobs := skipAsyncJobs l;
     pkcs12File := pkcs12File l; pkcs12Password := pkcs12Password l |}.

Definition set_headerFile (v : string) (l : Locals) : Locals :=
  {| fileName := fileName l; outputFile := outputFile l; both := both l; impl := impl l;
     outfileGiven := outfileGiven l; server := server l; headerFile := v;
     serviceName := serviceName l; exportMacro := exportMacro l; nameSpace := nameSpace l;
     nsmapping := nsmapping l; optionalElementType := optionalElementType l;
     keepUnusedTypes := keepUnusedTypes l; importPathList := importPathList l;
     useLocalFilesOnly := useLocalFilesOnly l; helpOnMissing := helpOnMissing l;
     skipAsync := skipAsync l; skipSync := skipSync l; skipAsyncJobs := skipAsyncJobs l;
     pkcs12File := pkcs12File l; pkcs12Password := pkcs12Password l |}.

Definition set_serviceName (v : string) (l : Locals) : Locals :=
  {| fileName := fileName l; outputFile := outputFile l; both := both l; impl := impl l;
     outfileGiven := outfileGiven l; server := server l; headerFile := headerFile l;
     serviceName := v; exportMacro := exportMacro l; nameSpace := nameSpace l;
     nsmapping := nsmapping l; optionalElementType := optionalElementType l;
     keepUnusedTypes := keepUnusedTypes l; importPathList := importPathList l;
     useLocalFilesOnly := useLocalFilesOnly l; helpOnMissing := helpOnMissing l;
     skipAsync := skipAsync l; skipSync := skipSync l; skipAsyncJobs := skipAsyncJobs l;
     pkcs12File := pkcs12File l; pkcs12Password := pkcs12Password l |}.

Definition set_exportMacro (v : string) (l : Locals) : Locals :=
  {| fileName := fileName l; outputFile := outputFile l; both := both l; impl := impl l;
     outfileGiven := outfileGiven l; server := server l; headerFile := headerFile l;
     serviceName := serviceName l; exportMacro := v; nameSpace := nameSpace l;
     nsmapping := nsmapping l; optionalElementType := optionalElementType l;
     keepUnusedTypes := keepUnusedTypes l; importPathList := importPathList l;
     useLocalFilesOnly := useLocalFilesOnly l; helpOnMissing := helpOnMissing l;
     skipAsync := skipAsync l; skipSync := skipSync l; skipAsyncJobs := skipAsyncJobs l;
     pkcs12File := pkcs12File l; pkcs12Password := pkcs12Password l |}.

Definition set_nameSpace (v : string) (l : Locals) : Locals :=
  {| fileName := fileName l; outputFile := outputFile l; both := both l; impl := impl l;
     outfileGiven := outfileGiven l; server := server l; headerFile := headerFile l;
     serviceName := serviceName l; exportMacro := exportMacro l; nameSpace := v;
     nsmapping := nsmapping l; optionalElementType := optionalElementType l;
     keepUnusedTypes := keepUnusedTypes l; importPathList := importPathList l;
     useLocalFilesOnly := useLocalFilesOnly l; helpOnMissing := helpOnMissing l;
     skipAsync := skipAsync l; skipSync := skipSync l; skipAsyncJobs := skipAsyncJobs l;
     pkcs12File := pkcs12File l; pkcs12Password := pkcs12Password l |}.

Definition set_nsmapping (v : gmap string string) (l : Locals) : Locals :=
  {| fileName := fileName l; outputFile := outputFile l; both := both l; impl := impl l;
     outfileGiven := outfileGiven l; server := server l; headerFile := headerFile l;
     serviceName := serviceName l; exportMacro := exportMacro l; nameSpace := nameSpace l;
     nsmapping := v; optionalElementType := optionalElementType l;
     keepUnusedTypes := keepUnusedTypes l; importPathList := importPathList l;
     useLocalFilesOnly := useLocalFilesOnly l; helpOnMissing := helpOnMissing l;
     skipAsync := skipAsync l; skipSync := skipSync l; skipAsyncJobs := skipAsyncJobs l;
     pkcs12File := pkcs12File l; pkcs12Password := pkcs12Password l |}.

Definition set_optionalElementType (v : Settings.OptionalElementType) (l : Locals) : Locals :=
  {| fileName := fileName l; outputFile := outputFile l; both := both l; impl := impl l;
     outfileGiven := outfileGiven l; server := server l; headerFile := headerFile l;
     serviceName := serviceName l; exportMacro := exportMacro l; nameSpace := nameSpace l;
     nsmapping := nsmapping l; optionalElementType := v;
     keepUnusedTypes := keepUnusedTypes l; importPathList := importPathList l;
     useLocalFilesOnly := useLocalFilesOnly l; helpOnMissing := helpOnMissing l;
     skipAsync := skipAsync l; skipSync := skipSync l; skipAsyncJobs := skipAsyncJobs l;
     pkcs12File := pkcs12File l; pkcs12Password := pkcs12Password l |}.

Definition set_keepUnusedTypes (v : bool) (l : Locals) : Locals :=
  {| fileName := fileName l; outputFile := outputFile l; both := both l; impl := impl l;
     outfileGiven := outfileGiven l; server := server l; headerFile := headerFile l;
     serviceName := serviceName l; exportMacro := exportMacro l; nameSpace := nameSpace l;
     nsmapping := nsmapping l; optionalElementType := optionalElementType l;
     keepUnusedTypes := v; importPathList := importPathList l;
     useLocalFilesOnly := useLocalFilesOnly l; helpOnMissing := helpOnMissing l;
     skipAsync := skipAsync l; skipSync := skipSync l; skipAsyncJobs := skipAsyncJobs l;
     pkcs12File := pkcs12File l; pkcs12Password := pkcs12Password l |}.

Definition set_importPathList (v : list string) (l : Locals) : Locals :=
  {| fileName := fileName l; outputFile := outputFile l; both := both l; impl := impl l;
     outfileGiven := outfileGiven l; server := server l; headerFile := headerFile l;
     serviceName := serviceName l; exportMacro := exportMacro l; nameSpace := nameSpace l;
     nsmapping := nsmapping l; optionalElementType := optionalElementType l;
     keepUnusedTypes := keepUnusedTypes l; importPathList := v;
     useLocalFilesOnly := useLocalFilesOnly l; helpOnMissing := helpOnMissing l;
     skipAsync := skipAsync l; skipSync := skipSync l; skipAsyncJobs := skipAsyncJobs l;
     pkcs12File := pkcs12File l; pkcs12Password := pkcs12Password l |}.

Definition set_useLocalFilesOnly (v : bool) (l : Locals) : Locals :=
  {| fileName := fileName l; outputFile := outputFile l; both := both l; impl := impl l;
     outfileGiven := outfileGiven l; server := server l; headerFile := headerFile l;
     serviceName := serviceName l; exportMacro := exportMacro l; nameSpace := nameSpace l;
     nsmapping := nsmapping l; optionalElementType := optionalElementType l;
     keepUnusedTypes := keepUnusedTypes l; importPathList := importPathList l;
     useLocalFilesOnly := v; helpOnMissing := helpOnMissing l; skipAsync := skipAsync l;
     skipSync := skipSync l; skipAsyncJobs := skipAsyncJobs l; pkcs12File := pkcs12File l;
     pkcs12Password := pkcs12Password l |}.

Definition set_helpOnMissing (v : bool) (l : Locals) : Locals :=
  {| fileName := fileName l; outputFile := outputFile l; both := both l; impl := impl l;
     outfileGiven := outfileGiven l; server := server l; headerFile := headerFile l;
     serviceName := serviceName l; exportMacro := exportMacro l; nameSpace := nameSpace l;
     nsmapping := nsmapping l; optionalElementType := optionalElementType l;
     keepUnusedTypes := keepUnusedTypes l; importPathList := importPathList l;
     useLocalFilesOnly := useLocalFilesOnly l; helpOnMissing := v;
     skipAsync := skipAsync l; skipSync := skipSync l; skipAsyncJobs := skipAsyncJobs l;
     pkcs12File := pkcs12File l; pkcs12Password := pkcs12Password l |}.

Definition set_skipAsync (v : bool) (l : Locals) : Locals :=
  {| fileName := fileName l; outputFile := outputFile l; both := both l; impl := impl l;
     outfileGiven := outfileGiven l; server := server l; headerFile := headerFile l;
     serviceName := serviceName l; exportMacro := exportMacro l; nameSpace := nameSpace l;
     nsmapping := nsmapping l; optionalElementType := optionalElementType l;
     keepUnusedTypes := keepUnusedTypes l; importPathList := importPathList l;
     useLocalFilesOnly := useLocalFilesOnly l; helpOnMissing := helpOnMissing l;
     skipAsync := v; skipSync := skipSync l; skipAsyncJobs := skipAsyncJobs l;
     pkcs12File := pkcs12File l; pkcs12Password := pkcs12Password l |}.

Definition set_skipSync (v : bool) (l : Locals) : Locals :=
  {| fileName := fileName l; outputFile := outputFile l; both := both l; impl := impl l;
     outfileGiven := outfileGiven l; server := server l; headerFile := headerFile l;
     serviceName := serviceName l; exportMacro := exportMacro l; nameSpace := nameSpace l;
     nsmapping := nsmapping l; optionalElementType := optionalElementType l;
     keepUnusedTypes := keepUnusedTypes l; importPathList := importPathList l;
     useLocalFilesOnly := useLocalFilesOnly l; helpOnMissing := helpOnMissing l;
     skipAsync := skipAsync l; skipSync := v; skipAsyncJobs := skipAsyncJobs l;
     pkcs12File := pkcs12File l; pkcs12Password := pkcs12Password l |}.

Definition set_skipAsyncJobs (v : bool) (l : Locals) : Locals :=
  {| fileName := fileName l; outputFile := outputFile l; both := both l; impl := impl l;
     outfileGiven := outfileGiven l; server := server l; headerFile := headerFile l;
     serviceName := serviceName l; exportMacro := exportMacro l; nameSpace := nameSpace l;
     nsmapping := nsmapping l; optionalElementType := optionalElementType l;
     keepUnusedTypes := keepUnusedTypes l; importPathList := importPathList l;
     useLocalFilesOnly := useLocalFilesOnly l; helpOnMissing := helpOnMissing l;
     skipAsync := skipAsync l; skipSync := skipSync l; skipAsyncJobs := v;
     pkcs12File := pkcs12File l; pkcs12Password := pkcs12Password l |}.

Definition set_pkcs12File (v : string) (l : Locals) : Locals :=
  {| fileName := fileName l; outputFile := outputFile l; both := both l; impl := impl l;
     outfileGiven := outfileGiven l; server := server l; headerFile := headerFile l;
     serviceName := serviceName l; exportMacro := exportMacro l; nameSpace := nameSpace l;
     nsmapping := nsmapping l; optionalElementType := optionalElementType l;
     keepUnusedTypes := keepUnusedTypes l; importPathList := importPathList l;
     useLocalFilesOnly := useLocalFilesOnly l; helpOnMissing := helpOnMissing l;
     skipAsync := skipAsync l; skipSync := skipSync l; skipAsyncJobs := skipAsyncJobs l;
     pkcs12File := v; pkcs12Password := pkcs12Password l |}.

Definition set_pkcs12Password (v : string) (l : Locals) : Locals :=
  {| fileName := fileName l; outputFile := outputFile l; both := both l; impl := impl l;
     outfileGiven := outfileGiven l; server := server l; headerFile := headerFile l;
     serviceName := serviceName l; exportMacro := exportMacro l; nameSpace := nameSpace l;
     nsmapping := nsmapping l; optionalElementType := optionalElementType l;
     keepUnusedTypes := keepUnusedTypes l; importPathList := importPathList l;
     useLocalFilesOnly := useLocalFilesOnly l; helpOnMissing := helpOnMissing l;
     skipAsync := skipAsync l; skipSync := skipSync l; skipAsyncJobs := skipAsyncJobs l;
     pkcs12File := pkcs12File l; pkcs12Password := v |}.

(** ** What the program does to the outside, and what the outside answers *)

(** What is written to [stderr]. *)
Inductive Message :=
| Usage                                   (* showHelp *)
| VersionLine                             (* description and version only *)
| ErrorReading (file : string)
| CertificateNotLoaded (file : string)
| WrongPasswordHint
| PasswordProtectedHint
| CertificateOpenFailed (file : string).

(** The file system and the TLS library, as far as [main] consults them. *)
Record Env := mkEnv {
  open_read : string → option string;        (* QFile::open(ReadOnly): the contents *)
  importPkcs12 : string → string → bool;     (* certificate bytes, password *)
  absolutePath : string → string             (* QFileInfo::absolutePath() *)
}.

(** How the option loop ends: it falls out of the [while], or [main] returns
    from inside it; either way with the locals as they are at that point. *)
Inductive LoopResult :=
| Finished (l : Locals)
| Returned (l : Locals) (code : Z) (err : list Message).

Definition locals_at_end (r : LoopResult) : Locals :=
  match r with Finished l => l | Returned l _ _ => l end.

(** How [main] ends: it returns, or it schedules [Compiler::run] and enters
    the event loop. *)
Inductive Outcome :=
| Exit (code : Z) (err : list Message)
| Exec (s : Settings.t).

(** ** [-namespaceMapping] *)

(** The body of the [while (!file.atEnd())] loop, lines 176-185. *)
Definition add_mapping_line (nsmapping : gmap string string) (line : string)
  : gmap string string :=
  let mapping := QByteArray.trimmed line in
  if QString.startsWith "#" mapping then nsmapping
  else
    let uri := QString.section "=" 0 (-2) mapping in
    let target := QString.section "=" (-1) (-1) mapping in
    if negb (QString.isEmpty uri) && negb (QString.isEmpty target)
    then <[uri := target]> nsmapping
    else nsmapping.

(** The whole loop over an opened mapping file. *)
Definition read_mapping_file (content : string) (nsmapping : gmap string string)
  : gmap string string :=
  foldl add_mapping_line nsmapping (QIODevice.lines content).

(** The [else] branch, lines 188-190: a literal [uri=code] argument. *)
Definition add_literal_mapping (nsmapping : gmap string string) (mapping : string)
  : gmap string string :=
  let uri := QString.section "=" 0 (-2) mapping in
  let target := QString.section "=" (-1) (-1) mapping in
  <[uri := target]> nsmapping.

(** [argv[arg] + 1]: the argument without its first character. *)
Definition skip_first (s : string) : string :=
  match s with EmptyString => EmptyString | String _ s' => s' end.

(** The chain of assignments of lines 199-205. *)
Definition parse_optional_element_type (optType : string)
    (current : Settings.OptionalElementType) : Settings.OptionalElementType :=
  if String.eqb optType "raw-pointer" then Settings.ERawPointer
  else if String.eqb optType "boost-optional" then Settings.EBoostOptional
  else if String.eqb optType "std-optional" then Settings.EStdOptional
  else current.

(** ** The option loop, lines 103-249

    [args] is [argv[1] .. argv[argc-1]]; [argv[argc]] is the null pointer,
    so [!argv[arg]] after [++arg] means that no argument is left.

    [loop_body] is one turn of the [while]: [opt] is [argv[arg]], [rest] what
    follows it, and [continue] stands for the remaining turns. *)
Definition loop_body (env : Env) (continue : Locals → list string → LoopResult)
    (l : Locals) (opt : string) (rest : list string) : LoopResult :=
  if String.eqb opt "-h" || String.eqb opt "-help" then Returned l 0 [Usage]
  else if String.eqb opt "-impl" then
    let l := set_impl true l in
    match rest with
    | [] => Returned l 1 [Usage]
    | v :: rest' => continue (set_headerFile v l) rest'
    end
  else if String.eqb opt "-both" then
    let l := set_both true l in
    match rest with
    | [] => Returned l 1 [Usage]
    | v :: rest' => continue (set_outputFile v l) rest'
    end
  else if String.eqb opt "-server" then continue (set_server true l) rest
  else if String.eqb opt "-v" || String.eqb opt "-version" then Returned l 0 [VersionLine]
  else if String.eqb opt "-o" || String.eqb opt "-output" then
    match rest with
    | [] => Returned l 1 [Usage]
    | v :: rest' => continue (set_outputFile v (set_outfileGiven true l)) rest'
    end
  else if String.eqb opt "-s" || String.eqb opt "-service" then
    match rest with
    | [] => Returned l 1 [Usage]
    | v :: rest' => continue (set_serviceName v l) rest'
    end
  else if String.eqb opt "-exportMacro" then
    match rest with
    | [] => Returned l 1 [Usage]
    | v :: rest' => continue (set_exportMacro v l) rest'
    end
  else if String.eqb opt "-namespace" then
    match rest with
    | [] => Returned l 1 [Usage]
    | v :: rest' => continue (set_nameSpace v l) rest'
    end
  else if String.eqb opt "-namespaceMapping" then
    match rest with
    | [] => Returned l 1 [Usage]
    | mapping :: rest' =>
      if QString.startsWith "@" mapping then
        let mappingFileName := skip_first mapping in
        match open_read env mappingFileName with
        | None => Returned l 1 [ErrorReading mappingFileName; Usage]
        | Some content =>
            continue (set_nsmapping (read_mapping_file content (nsmapping l)) l) rest'
        end
      else
        continue (set_nsmapping (add_literal_mapping (nsmapping l) mapping) l) rest'
    end
  else if String.eqb opt "-optional-element-type" then
    match rest with
    | [] => Returned l 1 [Usage]
    | optType :: rest' =>
        continue
          (set_optionalElementType
             (parse_optional_element_type optType (optionalElementType l)) l) rest'
    end
  else if String.eqb opt "-keep-unused-types" then continue (set_keepUnusedTypes true l) rest
  else if String.eqb opt "-import-path" then
    match rest with
    | [] => Returned l 1 [Usage]
    | v :: rest' => continue (set_importPathList (importPathList l ++ [v]) l) rest'
    end
  else if String.eqb opt "-use-local-files-only" then
    continue (set_useLocalFilesOnly true l) rest
  else if String.eqb opt "-help-on-missing" then continue (set_helpOnMissing true l) rest
  else if String.eqb opt "-pkcs12file" then
    match rest with
    | [] => Returned l 1 [Usage]
    | v :: rest' => continue (set_pkcs12File v l) rest'
    end
  else if String.eqb opt "-pkcs12password" then
    match rest with
    | [] => Returned l 1 [Usage]
    | v :: rest' => continue (set_pkcs12Password v l) rest'
    end
  else if String.eqb opt "-no-sync" then continue (set_skipSync true l) rest
  else if String.eqb opt "-no-async" then continue (set_skipAsync true l) rest
  else if String.eqb opt "-no-async-jobs" then continue (set_skipAsyncJobs true l) rest
  else
    match fileName l with
    | None => continue (set_fileName (Some opt) l) rest
    | Some _ => Returned l 1 [Usage]
    end.

Fixpoint parse_args (env : Env) (l : Locals) (args : list string) {struct args}
  : LoopResult :=
  match args with
  | [] => Finished l
  | opt :: rest => loop_body env (parse_args env) l opt rest
  end.

(** ** After the loop *)

(** [both && (outfileGiven || impl)], the test of line 258. *)
Definition both_combined (l : Locals) : bool := both l && (outfileGiven l || impl l).

(** Lines 264-296: the generation mode and the other settings. *)
Definition configure (env : Env) (l : Locals) (wsdl : string) : Settings.t :=
  let name := QFileInfo.fileName (outputFile l) in
  let '(genHeader, genImpl, headerName, implName) :=
    if both l then (true, true, name +:+ ".h", name +:+ ".cpp")
    else if impl l then (false, true, headerFile l, name)
    else (true, false, name, "UNUSED") in
  {| Settings.generateHeader := genHeader;
     Settings.generateImplementation := genImpl;
     Settings.headerFileName := headerName;
     Settings.implementationFileName := implName;
     Settings.generateServerCode := server l;
     Settings.outputDirectory := absolutePath env (outputFile l);
     Settings.wsdlFile := wsdl;
     Settings.wantedService := serviceName l;
     Settings.exportDeclaration := exportMacro l;
     Settings.nameSpace := nameSpace l;
     Settings.namespaceMapping := nsmapping l;
     Settings.optionalElementType := optionalElementType l;
     Settings.keepUnusedTypes := keepUnusedTypes l;
     Settings.importPathList := importPathList l;
     Settings.useLocalFilesOnly := useLocalFilesOnly l;
     Settings.helpOnMissing := helpOnMissing l;
     Settings.skipSync := skipSync l;
     Settings.skipAsync := skipAsync l;
     Settings.skipAsyncJobs := skipAsyncJobs l |}.

(** Lines 300-328: the client certificate; [Some err] when [main] returns 1
    there. *)
Definition load_certificate (env : Env) (l : Locals) : option (list Message) :=
  if QString.isEmpty (pkcs12File l) then None
  else
    match open_read env (pkcs12File l) with
    | Some cert =>
        if importPkcs12 env cert (pkcs12Password l) then None
        else Some [CertificateNotLoaded (pkcs12File l);
                   if negb (QString.isEmpty (pkcs12Password l))
                   then WrongPasswordHint else PasswordProtectedHint]
    | None => Some [CertificateOpenFailed (pkcs12File l)]
    end.

Definition main (env : Env) (args : list string) : Outcome :=
  match parse_args env initial_locals args with
  | Returned _ code err => Exit code err
  | Finished l =>
      match fileName l with
      | None => Exit 1 [Usage]
      | Some wsdl =>
          if both_combined l then Exit 1 [Usage]
          else
            let s := configure env l wsdl in
            match load_certificate env l with
            | Some err => Exit 1 err
            | None => Exec s
            end
      end
  end.

(** The entry a line of a mapping file stands for, in the words of the format
    description: the trimmed line is not a [#] comment, [uri] is everything
    before its final [=], [code] everything after it, and neither is empty. *)
Definition line_entry (line uri code : string) : Prop :=
  let mapping := QByteArray.trimmed line in
  QString.startsWith "#" mapping = false ∧
  mapping = uri +:+ String "=" code ∧
  QString.contains "=" code = false ∧
  uri ≠ EmptyString ∧ code ≠ EmptyString.

(** ** Vocabulary for statements about a run *)

(** The option names the loop recognises; any other argument is positional. *)
Definition option_names : list string :=
  ["-h"; "-help"; "-impl"; "-both"; "-server"; "-v"; "-version"; "-o"; "-output";
   "-s"; "-service"; "-exportMacro"; "-namespace"; "-namespaceMapping";
   "-optional-element-type"; "-keep-unused-types"; "-import-path";
   "-use-local-files-only"; "-help-on-missing"; "-pkcs12file"; "-pkcs12password";
   "-no-sync"; "-no-async"; "-no-async-jobs"].

(** [opt] stands where the loop reads an option: the arguments before it
    are used up by complete turns of the loop, so [opt] becomes [argv[arg]]
    at the top of a turn (and is not the value of the option before it). *)
Definition option_at (env : Env) (l : Locals) (args : list string) (opt : string) : Prop :=
  ∃ pre l1 rest, args = pre ++ opt :: rest ∧ parse_args env l pre = Finished l1.

(** The same for a whole command line. *)
Definition option_given (env : Env) (args : list string) (opt : string) : Prop :=
  option_at env initial_locals args opt.

(** The values [-optional-element-type] understands. *)
Definition optional_element_type_names : list string :=
  ["raw-pointer"; "boost-optional"; "std-optional"].



(** A mapping file with an entry, a comment, an entry whose URI contains
    [=], a line without [=] and a line with an empty URI. *)
Definition sample_mapping_lines : list string :=
  ["urn:orders=ord"; "# urn:skipped=skip"; "  http://example.org/a?x=1=exa  ";
   "no separator"; "=nothing"].

Definition sample_mapping_file : string :=
  foldr (λ line rest, line +:+ String "010" rest) EmptyString sample_mapping_lines.

(** An environment whose only file, [ns.map], is that mapping file. *)
Definition sample_files : Env :=
  {| open_read := λ f, if String.eqb f "ns.map" then Some sample_mapping_file else None;
     importPkcs12 := λ _ _, false;
     absolutePath := λ p, p |}.

(** The locals after [-both out/soap service.wsdl]. *)
Definition both_run_locals : Locals :=
  set_fileName (Some "service.wsdl")
    (set_outputFile "out/soap" (set_both true initial_locals)).

(** The locals after [-o gen/impl.cpp -impl soap.h service.wsdl]. *)
Definition impl_run_locals : Locals :=
  set_fileName (Some "service.wsdl")
    (set_headerFile "soap.h"
       (set_impl true (set_outputFile "gen/impl.cpp" (set_outfileGiven true initial_locals)))).

(** An environment with no readable file, for running examples. *)
Definition no_files : Env :=
  {| open_read := λ _, None; importPkcs12 := λ _ _, false; absolutePath := λ p, p |}.

(** * The stages behind [Compiler::run]

    Their code is not part of [main.cpp]; the definitions below follow the
    design document. *)

(** ** Data model *)

Abbreviation QualifiedName := (string * string)%type.

Inductive EdgeKind := ByValue | ByReference.

(** Modelled from the spec: the Particle of the data model (a named element
    or attribute, a reference to a TypeNode, an occurrence range whose upper
    end may be unbounded, nillability), with the kind of its edge to the
    referenced TypeNode. *)
Record Particle := mkParticle {
  p_name : string;
  p_type : QualifiedName;
  minOccurs : nat;
  maxOccurs : option nat;            (* [None]: unbounded *)
  nillable : bool;
  p_edge : EdgeKind
}.

Inductive TypeKind := SimpleType | ComplexType | EnumerationType | ListType.

(** Modelled from the spec: a TypeNode; its identity, the QualifiedName, is
    the key under which the Type Graph holds it. *)
Record TypeNode := mkTypeNode {
  t_kind : TypeKind;
  t_abstract : bool;
  t_base : option QualifiedName;
  t_members : list Particle
}.

(** ** Code Generator: what it produces *)

(** How a member is rendered: plainly, or as the optionality strategy of
    the run prescribes. *)
Inductive Rendering :=
| Plain
| PerStrategy (strategy : Settings.OptionalElementType).

Record GeneratedMember := mkMember {
  m_name : string;
  m_type : QualifiedName;
  m_rendering : Rendering
}.

Record GeneratedClass := mkClass {
  c_name : QualifiedName;
  c_base : option QualifiedName;
  c_members : list GeneratedMember
}.

(** ** Namespace Mapper *)

Module NamespaceMapper.

Definition is_identifier_char (c : ascii) : bool :=
  let n := nat_of_ascii c in
  ((48 <=? n) && (n <=? 57) || (65 <=? n) && (n <=? 90) ||
   (97 <=? n) && (n <=? 122) || (n =? 95))%nat.

Fixpoint sanitize (s : string) : string :=
  match s with
  | EmptyString => EmptyString
  | String c s' => String (if is_identifier_char c then c else "_"%char) (sanitize s')
  end.

(** Modelled from the spec: the fallback's short code before collisions
    are resolved, "last path segment, sanitized to an identifier". *)
Definition derive_code (uri : string) : string :=
  sanitize (QString.section "/" (-1) (-1) uri).

(** Modelled from the spec: "with a numeric suffix on collision"; the
    candidate itself when it is free, else the candidate followed by the
    first of 0, 1, 2, ... that makes it free. *)
Definition fresh_code (candidate : string) (taken : gset string) : string :=
  fresh_string_of_set candidate taken.

(** The codes the user mapping claims for namespaces in play. *)
Definition reserved_codes (user : gmap string string) (present : list string)
  : gset string :=
  list_to_set (omap (λ ns, user !! ns) present).

(** Modelled from the spec: the resolution order of the Namespace Mapper,
    "(1) explicit user mapping; (2) a deterministic fallback that derives
    a short code from the URI ... with a numeric suffix on collision",
    with codes "unique across the whole run".  [reserved] holds the codes
    the user mapping claims, [used] the codes given out so far.  A
    namespace gets the user's code for it unless that code is in use
    already; in that case, and when the user has no code for it, it gets
    the candidate (the user's code, or the one derived from the URI) with
    the first numeric suffix that is neither reserved nor in use. *)
Fixpoint assign (user : gmap string string) (reserved : gset string)
    (present : list string) (used : gset string) (codes : gmap string string)
  : gmap string string :=
  match present with
  | [] => codes
  | ns :: rest =>
      match codes !! ns with
      | Some _ => assign user reserved rest used codes
      | None =>
          let code :=
            match user !! ns with
            | Some code =>
                if bool_decide (code ∈ used)
                then fresh_code code (reserved ∪ used)
                else code
            | None => fresh_code (derive_code ns) (reserved ∪ used)
            end in
          assign user reserved rest ({[code]} ∪ used) (<[ns := code]> codes)
      end
  end.

(** Modelled from the spec: the mapping, "computed once all documents are
    loaded (so every namespace in play is known)": it is computed from the
    set of the namespaces in play, taken in the order of the set's
    elements. *)
Definition namespace_codes (user : gmap string string) (present : gset string)
  : gmap string string :=
  let order := elements present in
  assign user (reserved_codes user order) order ∅ ∅.

(** What holds of the codes given out so far while [assign] runs over the
    namespaces [all]: each is marked as in use; a code in use is the
    user's code of a namespace that has it, or is not reserved; only
    namespaces in play have a code; no two have the same; and a namespace
    whose user code no other namespace in play shares has that code. *)
Definition assigned (user : gmap string string) (all : list string)
    (used : gset string) (codes : gmap string string) : Prop :=
  (∀ ns c, codes !! ns = Some c → c ∈ used) ∧
  (∀ c, c ∈ used →
     (∃ ns, codes !! ns = Some c ∧ user !! ns = Some c) ∨
     c ∉ reserved_codes user all) ∧
  (∀ ns, is_Some (codes !! ns) → ns ∈ all) ∧
  (∀ n1 n2 c, codes !! n1 = Some c → codes !! n2 = Some c → n1 = n2) ∧
  (∀ ns c c', codes !! ns = Some c' → user !! ns = Some c →
     (∀ ns', ns' ∈ all → user !! ns' = Some c → ns' = ns) → c' = c).

(** [codeFor(namespaceURI)]. *)
Definition codeFor (user : gmap string string) (present : gset string)
    (namespaceURI : string) : option string :=
  namespace_codes user present !! namespaceURI.

End NamespaceMapper.

(** ** Schema Document Store and Import Resolver *)

(** The fatal errors of the pipeline. *)
Inductive Error :=
| FetchError (locator : string)
| SyntaxError (locator : string) (construct : string)
| ConflictError (name : QualifiedName).

(** Modelled from the spec: a parsed document, as far as loading needs it. *)
Record SchemaDocument := mkDocument {
  d_locator : string;
  d_namespace : string;
  d_imports : list string;
  d_types : list (QualifiedName * TypeNode)
}.

(** The namespaces in play: the target namespaces of the loaded documents. *)
Definition namespaces_in_play (documents : list SchemaDocument) : gset string :=
  list_to_set (d_namespace <$> documents).

(** Three documents, two of whose namespaces end alike. *)
Definition sample_documents : list SchemaDocument :=
  [ {| d_locator := "orders.wsdl"; d_namespace := "urn:orders";
       d_imports := ["v1.xsd"; "v2.xsd"]; d_types := [] |};
    {| d_locator := "v1.xsd"; d_namespace := "http://example.org/v1/types";
       d_imports := []; d_types := [] |};
    {| d_locator := "v2.xsd"; d_namespace := "http://example.org/v2/types";
       d_imports := []; d_types := [] |} ].

(** A user mapping that gives one code to two of these namespaces. *)
Definition sample_user_mapping : gmap string string :=
  <["urn:orders" := "NS"]> (<["http://example.org/v1/types" := "NS"]> ∅).

(** What the stages read from their surroundings: local files, the network,
    and the collaborators that are not modelled further (the Schema Parser
    and the stages that turn the loaded documents into classes). *)
Record World := mkWorld {
  local_file : string → option string;
  remote_fetch : string → option string;
  parse : string → string → Error + SchemaDocument;     (* bytes, locator *)
  generate : Settings.t → list SchemaDocument → Error + list GeneratedClass
}.

Module DocumentStore.

(** What follows the first [://] of a locator, if there is one. *)
Fixpoint after_scheme (locator : string) : option string :=
  match locator with
  | EmptyString => None
  | String ":" (String "/" (String "/" rest)) => Some rest
  | String _ s' => after_scheme s'
  end.

(** A locator is remote when it is a URI with a scheme and an authority. *)
Definition is_remote (locator : string) : bool :=
  match after_scheme locator with Some _ => true | None => false end.

(** The text before, and from, the first character for which [stop]
    holds. *)
Fixpoint take_until (stop : ascii → bool) (s : string) : string :=
  match s with
  | EmptyString => EmptyString
  | String c s' => if stop c then EmptyString else String c (take_until stop s')
  end.

Fixpoint drop_until (stop : ascii → bool) (s : string) : string :=
  match s with
  | EmptyString => EmptyString
  | String c s' => if stop c then s else drop_until stop s'
  end.

Definition is_one_of (cs : list ascii) (c : ascii) : bool :=
  existsb (Ascii.eqb c) cs.

(** The text after the last [c], all of [s] when there is none. *)
Fixpoint after_last (c : ascii) (s : string) : string :=
  match s with
  | EmptyString => EmptyString
  | String x s' =>
      if QString.contains c s' then after_last c s'
      else if Ascii.eqb x c then s'
      else s
  end.

(** The authority of a URI, given what follows its [://]: up to the first
    [/], [?] or [#]. *)
Definition uri_authority (rest : string) : string :=
  take_until (is_one_of ["/"; "?"; "#"]%char) rest.

(** The host: the authority without user information (up to its last [@])
    and without port (from the [:] on; an address in brackets is kept up
    to its [\]]). *)
Definition uri_host (rest : string) : string :=
  let host_and_port := after_last "@" (uri_authority rest) in
  match host_and_port with
  | String "[" _ =>
      take_until (is_one_of ["]"%char]) host_and_port +:+ "]"
  | _ => take_until (is_one_of [":"%char]) host_and_port
  end.

(** The path: what follows the authority, up to the query ([?]) or the
    fragment ([#]); it is empty or starts with [/]. *)
Definition uri_path (rest : string) : string :=
  take_until (is_one_of ["?"; "#"]%char)
    (drop_until (is_one_of ["/"; "?"; "#"]%char) rest).

(** A path below a directory: without its leading [/]. *)
Definition relative (path : string) : string :=
  match path with
  | String "/" p => p
  | _ => path
  end.

(** Modelled from the spec: the file probed under an import path,
    [<importPath>/<uri-host>/<uri-path>]; user information, port, query
    and fragment of the URI take no part in it. *)
Definition probe (importPath locator : string) : string :=
  match after_scheme locator with
  | Some rest =>
      importPath +:+ "/" +:+ uri_host rest +:+ "/" +:+ relative (uri_path rest)
  | None => importPath +:+ "/" +:+ locator
  end.

(** The first import path under which the document is found. *)
Fixpoint probe_all (w : World) (importPaths : list string) (locator : string)
  : option string :=
  match importPaths with
  | [] => None
  | importPath :: others =>
      match local_file w (probe importPath locator) with
      | Some bytes => Some bytes
      | None => probe_all w others locator
      end
  end.

(** Modelled from the spec: [resolve(locator) -> bytes] of the Schema
    Document Store, "probe each configured path, in order, before falling
    back to network fetch; if local-files-only is set, fail instead of
    fetching remotely"; failures carry the locator. *)
Definition resolve (cfg : Settings.t) (w : World) (locator : string)
  : Error + string :=
  if is_remote locator then
    match probe_all w (Settings.importPathList cfg) locator with
    | Some bytes => inr bytes
    | None =>
        if Settings.useLocalFilesOnly cfg then inl (FetchError locator)
        else match remote_fetch w locator with
             | Some bytes => inr bytes
             | None => inl (FetchError locator)
             end
    end
  else
    match local_file w locator with
    | Some bytes => inr bytes
    | None => inl (FetchError locator)
    end.

End DocumentStore.

Module ImportResolver.

(** The locators still to be loaded and the documents loaded so far. *)
Record State := mkState {
  pending : list string;
  loaded : list SchemaDocument
}.

Definition is_loaded (st : State) (locator : string) : bool :=
  bool_decide (locator ∈ d_locator <$> loaded st).

(** Modelled from the spec: one step of the closure computation: take the
    next locator; skip it if it was parsed already; else resolve and parse
    it, add the document and queue its imports.  A fetch or syntax error
    stops the pipeline. *)
Definition step (cfg : Settings.t) (w : World) (locator : string) (rest : list string)
    (st : State) : Error + State :=
  if is_loaded st locator then inr {| pending := rest; loaded := loaded st |}
  else
    match DocumentStore.resolve cfg w locator with
    | inl e => inl e
    | inr bytes =>
        match parse w bytes locator with
        | inl e => inl e
        | inr doc => inr {| pending := rest ++ d_imports doc;
                            loaded := loaded st ++ [doc] |}
        end
    end.

(** Modelled from the spec: the closure, "repeat until no new imports
    appear".  [None]: still loading after [fuel] steps. *)
Fixpoint closure (cfg : Settings.t) (w : World) (fuel : nat) (st : State)
  : option (Error + list SchemaDocument) :=
  match pending st with
  | [] => Some (inr (loaded st))
  | locator :: rest =>
      match fuel with
      | O => None
      | S fuel' =>
          match step cfg w locator rest st with
          | inl e => Some (inl e)
          | inr st' => closure cfg w fuel' st'
          end
      end
  end.

(** The state after [n] successful steps, if there are that many. *)
Fixpoint after_steps (cfg : Settings.t) (w : World) (n : nat) (st : State)
  : option State :=
  match n with
  | O => Some st
  | S n' =>
      match pending st with
      | [] => None
      | locator :: rest =>
          match step cfg w locator rest st with
          | inl _ => None
          | inr st' => after_steps cfg w n' st'
          end
      end
  end.

End ImportResolver.

(** How a run of the compiler ends. *)
Inductive RunResult :=
| Failed (e : Error)                         (* aborted; nothing is produced *)
| Produced (classes : list GeneratedClass).

Definition output (r : RunResult) : list GeneratedClass :=
  match r with Failed _ => [] | Produced classes => classes end.

(** Modelled from the spec: the control flow of the pipeline: the Import
    Resolver loads the closure of the start locator; only then do the later
    stages run; fetch, syntax and conflict errors stop it at once, with no
    partial output. *)
Definition run (w : World) (fuel : nat) (cfg : Settings.t) : option RunResult :=
  let start := {| ImportResolver.pending := [Settings.wsdlFile cfg];
                  ImportResolver.loaded := [] |} in
  match ImportResolver.closure cfg w fuel start with
  | None => None
  | Some (inl e) => Some (Failed e)
  | Some (inr documents) =>
      match generate w cfg documents with
      | inl e => Some (Failed e)
      | inr classes => Some (Produced classes)
      end
  end.

(** A world without files or network, for running examples. *)
Definition offline : World :=
  {| local_file := λ _, None; remote_fetch := λ _, None;
     parse := λ _ locator, inl (SyntaxError locator "");
     generate := λ _ _, inr [] |}.

(** ** A small world for running examples

    A local WSDL file that imports a schema from a remote URI; the schema is
    on the network, and below the import path there is only another
    schema. *)
Definition sample_import : string := "http://example.org:8080/schemas/types.xsd?v=1".

Definition sample_world : World :=
  {| local_file := λ f,
       if String.eqb f "service.wsdl" then Some "wsdl"
       else if String.eqb f "imports/example.org/schemas/other.xsd" then Some "xsd"
       else None;
     remote_fetch := λ u, if String.eqb u sample_import then Some "xsd" else None;
     parse := λ bytes locator,
       inr {| d_locator := locator;
              d_namespace := "urn:" +:+ bytes;
              d_imports := if String.eqb bytes "wsdl" then [sample_import] else [];
              d_types := [] |};
     generate := λ _ documents,
       inr ((λ d, {| c_name := (d_namespace d, "Service");
                     c_base := None; c_members := [] |}) <$> documents) |}.
(** ** Dependency Orderer *)

Module DependencyOrderer.

(** The Type Graph: the retained TypeNodes under their QualifiedNames; the
    edges are the members of the nodes. *)
Abbreviation TypeGraph := (gmap QualifiedName TypeNode).

Definition by_value (p : Particle) : bool :=
  match p_edge p with ByValue => true | ByReference => false end.

(** The types a node contains by value, one per by-value member. *)
Definition value_members (n : TypeNode) : list QualifiedName :=
  p_type <$> filter (λ p, by_value p = true) (t_members n).

Definition deps (g : TypeGraph) (u : QualifiedName) : list QualifiedName :=
  match g !! u with
  | Some n => value_members n
  | None => []
  end.

Definition retained (g : TypeGraph) (u : QualifiedName) : bool :=
  match g !! u with Some _ => true | None => false end.

(** [u] contains [v] by value / holds [v] by reference. *)
Definition contains_by_value (g : TypeGraph) (u v : QualifiedName) : Prop :=
  v ∈ deps g u.

Definition holds_by_reference (g : TypeGraph) (u v : QualifiedName) : Prop :=
  ∃ n p, g !! u = Some n ∧ p ∈ t_members n ∧ p_type p = v ∧ p_edge p = ByReference.

(** No type contains itself by value, directly or through others. *)
Definition acyclic (g : TypeGraph) : Prop :=
  ∀ u, ¬ tc (contains_by_value g) u u.

(** A linear order of all retained TypeNodes in which every type comes
    after the retained types it contains by value. *)
Definition topological_order (g : TypeGraph) (order : list QualifiedName) : Prop :=
  NoDup order ∧
  (∀ u, u ∈ order ↔ is_Some (g !! u)) ∧
  (∀ i u v, order !! i = Some u → contains_by_value g u v → is_Some (g !! v) →
     ∃ j, j < i ∧ order !! j = Some v)%nat.

(** A closed walk along by-value edges, given by its edges. *)
Inductive walk (g : TypeGraph) : QualifiedName → list (QualifiedName * QualifiedName)
    → QualifiedName → Prop :=
| walk_edge u v : contains_by_value g u v → walk g u [(u, v)] v
| walk_step u v w es :
    contains_by_value g u v → walk g v es w → walk g u ((u, v) :: es) w.

(** *** Topological sort *)

(** All by-value members of [u] are emitted already (or not retained). *)
Definition ready (g : TypeGraph) (emitted : list QualifiedName) (u : QualifiedName)
  : bool :=
  forallb (λ d, bool_decide (d ∈ emitted) || negb (retained g d)) (deps g u).

(** Modelled from the spec: "topological sort over the by-value subgraph":
    emit, again and again, the first remaining type whose by-value members
    are all emitted.  Returns what was emitted and what is left over; the
    latter is not empty exactly when a cycle keeps the sort from going on. *)
Fixpoint emit (g : TypeGraph) (fuel : nat) (remaining emitted : list QualifiedName)
  : list QualifiedName * list QualifiedName :=
  match fuel with
  | O => (emitted, remaining)
  | S fuel' =>
      match list_find (λ u, ready g emitted u = true) remaining with
      | Some (i, u) => emit g fuel' (delete i remaining) (emitted ++ [u])
      | None => (emitted, remaining)
      end
  end.

(** What is emitted so far is in dependency order. *)
Definition in_dependency_order (g : TypeGraph) (emitted : list QualifiedName) : Prop :=
  (∀ i u v, emitted !! i = Some u → contains_by_value g u v → is_Some (g !! v) →
     ∃ j, j < i ∧ emitted !! j = Some v)%nat.

(** *** Cycle detection *)

(** The first by-value member of [u] among the types left over. *)
Definition next (g : TypeGraph) (stuck : list QualifiedName) (u : QualifiedName)
  : option QualifiedName :=
  snd <$> list_find (λ d, d ∈ stuck) (deps g u).

(** The edges along a trail of types, the most recent type first. *)
Definition trail_edges (trail : list QualifiedName)
  : list (QualifiedName * QualifiedName) :=
  zip (tail trail) trail.

Fixpoint take_through (d : QualifiedName) (trail : list QualifiedName)
  : list QualifiedName :=
  match trail with
  | [] => []
  | x :: trail' => if decide (x = d) then [x] else x :: take_through d trail'
  end.

(** Follow by-value members from the head of [trail] until a type of the
    trail is met again; the result is the list of the edges of the cycle
    found, the edge that closed it first. *)
Fixpoint find_cycle (g : TypeGraph) (stuck : list QualifiedName) (fuel : nat)
    (trail : list QualifiedName) : option (list (QualifiedName * QualifiedName)) :=
  match fuel, trail with
  | S fuel', u :: _ =>
      match next g stuck u with
      | Some d =>
          if decide (d ∈ trail)
          then Some ((u, d) :: trail_edges (take_through d trail))
          else find_cycle g stuck fuel' (d :: trail)
      | None => None
      end
  | _, _ => None
  end.

(** *** Choice of the edge *)

Section Choice.
(** The NamespaceCode of a namespace URI, from the Namespace Mapper. *)
Context (code : string → string).

(** The lexical (namespace-code, local-name) pair of a type. *)
Definition lexical_pair (q : QualifiedName) : string * string := (code q.1, q.2).

Definition pair_leb (a b : string * string) : bool :=
  String.ltb a.1 b.1 || (String.eqb a.1 b.1 && String.leb a.2 b.2).

Definition pair_ltb (a b : string * string) : bool := negb (pair_leb b a).

(** The smallest pair among the two endpoints of an edge. *)
Definition smallest_endpoint (e : QualifiedName * QualifiedName) : string * string :=
  let a := lexical_pair e.1 in
  let b := lexical_pair e.2 in
  if pair_leb a b then a else b.

(** Modelled from the spec: "select the edge that closes the cycle with
    the smallest lexical (namespace-code, local-name) pair among its
    endpoints": of the edges of the cycle, the first one whose smallest
    endpoint is smallest. *)
Fixpoint select_edge (best : QualifiedName * QualifiedName)
    (edges : list (QualifiedName * QualifiedName)) : QualifiedName * QualifiedName :=
  match edges with
  | [] => best
  | e :: edges' =>
      select_edge
        (if pair_ltb (smallest_endpoint e) (smallest_endpoint best) then e else best)
        edges'
  end.
End Choice.

(** *** Rewriting a member *)

Definition set_edge (k : EdgeKind) (p : Particle) : Particle :=
  {| p_name := p_name p; p_type := p_type p; minOccurs := minOccurs p;
     maxOccurs := maxOccurs p; nillable := nillable p; p_edge := k |}.

(** The first by-value member of type [t] becomes held by reference. *)
Fixpoint hold_by_reference (t : QualifiedName) (members : list Particle)
  : list Particle :=
  match members with
  | [] => []
  | p :: members' =>
      if by_value p && bool_decide (p_type p = t)
      then set_edge ByReference p :: members'
      else p :: hold_by_reference t members'
  end.

Definition set_members (members : list Particle) (n : TypeNode) : TypeNode :=
  {| t_kind := t_kind n; t_abstract := t_abstract n; t_base := t_base n;
     t_members := members |}.

(** Modelled from the spec: "rewrite that single member from contained by
    value to held by reference/indirection". *)
Definition rewrite_member (g : TypeGraph) (e : QualifiedName * QualifiedName)
  : TypeGraph :=
  alter (λ n, set_members (hold_by_reference e.2 (t_members n)) n) e.1 g.

(** [g'] is [g] with some by-value members turned into references: the
    same types, no new by-value edge, and every by-value edge of [g] still
    there, by value, or by reference if it lay on a by-value cycle. *)
Definition relaxes (g g' : TypeGraph) : Prop :=
  (∀ u, is_Some (g' !! u) ↔ is_Some (g !! u)) ∧
  (∀ u v, contains_by_value g' u v → contains_by_value g u v) ∧
  (∀ u v, contains_by_value g u v →
          contains_by_value g' u v ∨
          (holds_by_reference g' u v ∧ rtc (contains_by_value g) v u)) ∧
  (∀ u v, holds_by_reference g u v → holds_by_reference g' u v).

(** *** The Orderer *)

Definition nodes (g : TypeGraph) : list QualifiedName := (map_to_list g).*1.

(** The number of by-value members in the graph. *)
Definition value_edges (g : TypeGraph) : nat :=
  sum_list_with (λ kn, length (value_members kn.2)) (map_to_list g).

Inductive Attempt :=
| Ordered (order : list QualifiedName)
| CycleEdge (e : QualifiedName * QualifiedName).

(** One round: sort; if types are left over, find a cycle among them and
    name the edge to rewrite. *)
Definition attempt (code : string → string) (g : TypeGraph) : Attempt :=
  let '(emitted, stuck) := emit g (length (nodes g)) (nodes g) [] in
  match stuck with
  | [] => Ordered emitted
  | u :: _ =>
      match find_cycle g stuck (length stuck) [u] with
      | Some (e :: es) => CycleEdge (select_edge code e es)
      | _ => Ordered emitted
      end
  end.

(** Modelled from the spec: "when a cycle is detected, select the edge
    ... and rewrite that single member ...; re-run detection until
    acyclic".  [None]: still not acyclic after [fuel] rounds. *)
Fixpoint order_loop (code : string → string) (fuel : nat) (g : TypeGraph)
  : option (TypeGraph * list QualifiedName) :=
  match fuel with
  | O => None
  | S fuel' =>
      match attempt code g with
      | Ordered order => Some (g, order)
      | CycleEdge e => order_loop code fuel' (rewrite_member g e)
      end
  end.

(** The Dependency Orderer: the graph with its cycles broken, and the
    emission order.  Every round but the last turns one by-value member
    into a reference, so one round more than there are by-value members
    is enough. *)
Definition order (code : string → string) (g : TypeGraph)
  : option (TypeGraph * list QualifiedName) :=
  order_loop code (S (value_edges g)) g.

(** *** Sample graphs *)

Definition sample_member (name type : string) : Particle :=
  {| p_name := name; p_type := ("urn:sample", type); minOccurs := 1;
     maxOccurs := Some 1%nat; nillable := false; p_edge := ByValue |}.

Definition sample_list_member (name type : string) : Particle :=
  {| p_name := name; p_type := ("urn:sample", type); minOccurs := 0;
     maxOccurs := None; nillable := false; p_edge := ByValue |}.

Definition sample_type (members : list Particle) : TypeNode :=
  {| t_kind := ComplexType; t_abstract := false; t_base := None;
     t_members := members |}.

(** An order contains its lines, a line its product; no cycle. *)
Definition order_graph : TypeGraph :=
  list_to_map
    [(("urn:sample", "Order"),
      sample_type [sample_list_member "lines" "Line"; sample_member "id" "string"]);
     (("urn:sample", "Line"), sample_type [sample_member "product" "Product"]);
     (("urn:sample", "Product"), sample_type [])].

(** A node contains a sequence of nodes. *)
Definition tree_graph : TypeGraph :=
  list_to_map
    [(("urn:sample", "Node"),
      sample_type [sample_list_member "children" "Node"; sample_member "value" "Value"]);
     (("urn:sample", "Value"), sample_type [])].

End DependencyOrderer.

(** ** Further vocabulary for statements about the front end *)

(** The options that take a value from the next argument. *)
Definition valued_options : list string :=
  ["-impl"; "-both"; "-o"; "-output"; "-s"; "-service"; "-exportMacro"; "-namespace";
   "-namespaceMapping"; "-optional-element-type"; "-import-path"; "-pkcs12file";
   "-pkcs12password"].

(** Every flag that is set in [l] is set in [l']. *)
Definition flags_kept (l l' : Locals) : Prop :=
  (both l = true → both l' = true) ∧
  (impl l = true → impl l' = true) ∧
  (outfileGiven l = true → outfileGiven l' = true) ∧
  (server l = true → server l' = true) ∧
  (keepUnusedTypes l = true → keepUnusedTypes l' = true) ∧
  (useLocalFilesOnly l = true → useLocalFilesOnly l' = true) ∧
  (helpOnMissing l = true → helpOnMissing l' = true) ∧
  (skipAsync l = true → skipAsync l' = true) ∧
  (skipSync l = true → skipSync l' = true) ∧
  (skipAsyncJobs l = true → skipAsyncJobs l' = true).

(** A text of white space only. *)
Fixpoint all_space (s : string) : bool :=
  match s with
  | EmptyString => true
  | String c s' => QByteArray.isspace c && all_space s'
  end.

(** A text that is empty or ends with a line feed: a file whose last line
    is complete. *)
Fixpoint complete_lines (s : string) : bool :=
  match s with
  | EmptyString => true
  | String c EmptyString => Ascii.eqb c "010"
  | String _ s' => complete_lines s'
  end.

(** An environment whose only file is [client.p12], which the TLS library
    refuses. *)
Definition refused_certificate : Env :=
  {| open_read := λ f, if String.eqb f "client.p12" then Some "not a certificate" else None;
     importPkcs12 := λ _ _, false;
     absolutePath := λ p, p |}.

(** An environment with two mapping files and their concatenation. *)
Definition mapping_files : Env :=
  {| open_read := λ f,
       if String.eqb f "a.map" then Some ("urn:a=a" +:+ String "010" EmptyString)
       else if String.eqb f "b.map" then Some "urn:b=b"
       else if String.eqb f "ab.map"
            then Some (("urn:a=a" +:+ String "010" EmptyString) +:+ "urn:b=b")
       else None;
     importPkcs12 := λ _ _, false;
     absolutePath := λ p, p |}.


(** Lines 299-323: the client certificate that becomes the default TLS
    configuration.  The private key, the certificate and the CA certificates
    are what [importPkcs12] takes out of the bytes of the file with the
    password, so the pair of both stands for them.  [None]: the default
    configuration is left as it is (no file was named, the file could not be
    opened, or the import was refused). *)
Definition installed_certificate (env : Env) (l : Locals) : option (string * string) :=
  if QString.isEmpty (pkcs12File l) then None
  else
    match open_read env (pkcs12File l) with
    | Some cert =>
        if importPkcs12 env cert (pkcs12Password l)
        then Some (cert, pkcs12Password l)
        else None
    | None => None
    end.

(** The same files with a TLS library that accepts what it is given. *)
Definition accepted_certificate : Env :=
  {| open_read := open_read refused_certificate;
     importPkcs12 := λ _ _, true;
     absolutePath := absolutePath refused_certificate |}.
(** ** Facts about the text primitives *)

Module QStringFacts.
Import QString.

Lemma split_nonempty sep s : split sep s ≠ [].
Proof.
  destruct s as [|c s]; simpl; [done|].
  destruct (Ascii.eqb c sep); [done|]. by destruct (split sep s).
Qed.

Lemma split_no_sep sep s : contains sep s = false → split sep s = [s].
Proof.
  induction s as [|c s IH]; simpl; [done|].
  intros [Hc Hs]%orb_false_iff. rewrite Hc, (IH Hs). done.
Qed.

Lemma split_app sep u c :
  split sep (u +:+ String sep c) = split sep u ++ split sep c.
Proof.
  induction u as [|a u IH]; simpl.
  - by rewrite Ascii.eqb_refl.
  - destruct (Ascii.eqb a sep); [by rewrite IH|].
    rewrite IH. pose proof (split_nonempty sep u).
    by destruct (split sep u).
Qed.

Lemma join_split sep s : join sep (split sep s) = s.
Proof.
  induction s as [|c s IH]; simpl; [done|].
  destruct (Ascii.eqb_spec c sep) as [->|Hne].
  - pose proof (split_nonempty sep s).
    destruct (split sep s) eqn:E; [done|]. simpl in *. by rewrite IH.
  - pose proof (split_nonempty sep s).
    destruct (split sep s) as [|f fs] eqn:E; [done|].
    destruct fs; simpl in *; by rewrite <- IH.
Qed.

(** Everything before the final separator. *)
Lemma section_before_last sep u c :
  contains sep c = false → section sep 0 (-2) (u +:+ String sep c) = u.
Proof.
  intros Hc. unfold section. rewrite split_app, (split_no_sep _ _ Hc).
  rewrite length_app. simpl List.length.
  pose proof (split_nonempty sep u) as Hne.
  destruct (split sep u) as [|f fs] eqn:E; [done|]. clear Hne.
  replace (0 <? 0) with false by done.
  replace (-2 <? 0) with true by done.
  set (n := Z.of_nat (List.length (f :: fs) + 1)).
  assert (Hlen : (1 <= List.length (f :: fs))%nat) by (simpl; lia).
  assert (Hn : n = Z.of_nat (List.length (f :: fs)) + 1) by (unfold n; lia).
  rewrite !Z.geb_leb, !Z.gtb_ltb.
  replace (n <=? 0) with false by (symmetry; apply Z.leb_gt; lia).
  replace (-2 + n <? 0) with false by (symmetry; apply Z.ltb_ge; lia).
  simpl orb. cbv iota.
  replace (Z.to_nat (-2 + n + 1) - Z.to_nat 0)%nat with (List.length (f :: fs)) by lia.
  rewrite drop_0, take_app_length. rewrite <- E. apply join_split.
Qed.

(** Everything after the final separator. *)
Lemma section_after_last sep u c :
  contains sep c = false → section sep (-1) (-1) (u +:+ String sep c) = c.
Proof.
  intros Hc. unfold section. rewrite split_app, (split_no_sep _ _ Hc).
  rewrite length_app. simpl List.length.
  replace (-1 <? 0) with true by done.
  set (k := List.length (split sep u)).
  rewrite !Z.geb_leb, !Z.gtb_ltb, Z.ltb_irrefl.
  replace (Z.of_nat (k + 1) <=? -1 + Z.of_nat (k + 1)) with false
    by (symmetry; apply Z.leb_gt; lia).
  replace (-1 + Z.of_nat (k + 1) <? 0) with false by (symmetry; apply Z.ltb_ge; lia).
  simpl orb. cbv iota.
  replace (Z.to_nat (-1 + Z.of_nat (k + 1))) with k by lia.
  replace (Z.to_nat (-1 + Z.of_nat (k + 1) + 1) - k)%nat with 1%nat by lia.
  unfold k. rewrite drop_app_length. done.
Qed.

(** Without a separator there is nothing before it, and the whole text is
    the last field. *)
Lemma section_before_none sep s :
  contains sep s = false → section sep 0 (-2) s = EmptyString.
Proof. intros Hs. unfold section. by rewrite (split_no_sep _ _ Hs). Qed.

Lemma section_last_none sep s :
  contains sep s = false → section sep (-1) (-1) s = s.
Proof. intros Hs. unfold section. by rewrite (split_no_sep _ _ Hs). Qed.

Lemma contains_app sep u c : contains sep (u +:+ String sep c) = true.
Proof.
  induction u as [|a u IH]; simpl.
  - by rewrite Ascii.eqb_refl.
  - rewrite IH. apply orb_true_r.
Qed.

(** A text with a separator splits at its final one. *)
Lemma last_sep_exists sep s :
  contains sep s = true →
  ∃ u c, s = u +:+ String sep c ∧ contains sep c = false.
Proof.
  induction s as [|a s IH]; simpl; [done|].
  destruct (contains sep s) eqn:Hs.
  - intros _. destruct IH as (u & c & -> & Hc); [done|].
    by exists (String a u), c.
  - rewrite orb_false_r. intros ->%Ascii.eqb_eq. by exists EmptyString, s.
Qed.

End QStringFacts.
(** ** Mapping files (lines 175-186) *)

Section MappingFile.
Import QString QStringFacts.

Lemma isEmpty_false s : isEmpty s = false ↔ s ≠ EmptyString.
Proof. by destruct s. Qed.

(** A line has at most one entry. *)
Lemma line_entry_sections line uri code :
  line_entry line uri code →
  section "=" 0 (-2) (QByteArray.trimmed line) = uri ∧
  section "=" (-1) (-1) (QByteArray.trimmed line) = code.
Proof.
  intros (_ & -> & Hc & _ & _).
  by rewrite section_before_last, section_after_last.
Qed.

Lemma line_entry_functional line uri code code' :
  line_entry line uri code → line_entry line uri code' → code = code'.
Proof.
  intros [_ H1]%line_entry_sections [_ H2]%line_entry_sections. congruence.
Qed.

(** The loop body stores the line's entry ... *)
Lemma add_mapping_line_entry nsmapping line uri code :
  line_entry line uri code →
  add_mapping_line nsmapping line = <[uri := code]> nsmapping.
Proof.
  intros He. destruct (line_entry_sections _ _ _ He) as [Hu Hc].
  destruct He as (Hhash & _ & _ & Hune & Hcne).
  unfold add_mapping_line. rewrite Hhash, Hu, Hc.
  apply isEmpty_false in Hune, Hcne. by rewrite Hune, Hcne.
Qed.

(** ... and stores nothing for a line without one. *)
Lemma add_mapping_line_no_entry nsmapping line :
  (∀ uri code, ¬ line_entry line uri code) →
  add_mapping_line nsmapping line = nsmapping.
Proof.
  intros Hno. unfold add_mapping_line.
  destruct (startsWith "#" (QByteArray.trimmed line)) eqn:Hhash; [done|].
  destruct (isEmpty (section "=" 0 (-2) (QByteArray.trimmed line))) eqn:Hu; [done|].
  destruct (isEmpty (section "=" (-1) (-1) (QByteArray.trimmed line))) eqn:Hc; [done|].
  exfalso. apply isEmpty_false in Hu, Hc.
  destruct (contains "=" (QByteArray.trimmed line)) eqn:Hcont.
  - destruct (last_sep_exists _ _ Hcont) as (u & c & Heq & Hnc).
    apply (Hno u c). unfold line_entry.
    rewrite Heq, section_before_last in Hu by done.
    rewrite Heq, section_after_last in Hc by done. done.
  - by rewrite section_before_none in Hu.
Qed.

Lemma line_entry_dec line :
  (∃ uri code, line_entry line uri code) ∨ (∀ uri code, ¬ line_entry line uri code).
Proof.
  set (t := QByteArray.trimmed line).
  destruct (startsWith "#" t) eqn:Hhash.
  { right. intros u c (H & _). fold t in H. congruence. }
  destruct (contains "=" t) eqn:Hcont.
  - destruct (last_sep_exists _ _ Hcont) as (u & c & Heq & Hnc).
    destruct (decide (u = EmptyString)) as [->|Hu].
    { right. intros u' c' He. pose proof He as [Hs _]%line_entry_sections.
      fold t in Hs. rewrite Heq, section_before_last in Hs by done.
      subst u'. by destruct He as (_ & _ & _ & ? & _). }
    destruct (decide (c = EmptyString)) as [->|Hc].
    { right. intros u' c' He. pose proof He as [_ Hs]%line_entry_sections.
      fold t in Hs. rewrite Heq, section_after_last in Hs by done.
      subst c'. by destruct He as (_ & _ & _ & _ & ?). }
    left. by exists u, c.
  - right. intros u c (_ & Heq & _). fold t in Heq.
    by rewrite Heq, contains_app in Hcont.
Qed.

(** The mapping after the lines [lines] were processed: a key holds the
    code of the last line that has an entry for it, and keeps its earlier
    value when no line has one. *)
Lemma foldl_add_mapping_line lines nsmapping uri code :
  foldl add_mapping_line nsmapping lines !! uri = Some code ↔
    (∃ before line after,
        lines = before ++ line :: after ∧ line_entry line uri code ∧
        ∀ line' code', line' ∈ after → ¬ line_entry line' uri code')
    ∨ (nsmapping !! uri = Some code ∧
       ∀ line' code', line' ∈ lines → ¬ line_entry line' uri code').
Proof.
  revert nsmapping. induction lines as [|x lines IH]; intros nsmapping; simpl.
  - split.
    + intros H. right. split; [done|]. by intros ?? ?%elem_of_nil.
    + intros [(b & l & a & H & _)|[H _]]; [by destruct b|done].
  - rewrite IH. clear IH. split.
    + intros [(b & l & a & -> & He & Hno)|[Hm Hno]].
      * left. by exists (x :: b), l, a.
      * destruct (line_entry_dec x) as [(u & c & He)|Hx].
        -- rewrite (add_mapping_line_entry _ _ _ _ He) in Hm.
           destruct (decide (u = uri)) as [->|Hne].
           ++ rewrite lookup_insert_eq in Hm. injection Hm as ->.
              left. by exists [], x, lines.
           ++ rewrite lookup_insert_ne in Hm by done. right. split; [done|].
              intros l' c' [->|Hin]%elem_of_cons; [|by apply Hno].
              intros [He' _]%line_entry_sections.
              apply line_entry_sections in He as [He _]. congruence.
        -- rewrite (add_mapping_line_no_entry _ _ Hx) in Hm. right.
           split; [done|]. intros l' c' [->|Hin]%elem_of_cons; [apply Hx|by apply Hno].
    + intros [(b & l & a & Heq & He & Hno)|[Hm Hno]].
      * destruct b as [|y b]; simpl in Heq; injection Heq as -> ->.
        -- right. split; [|done].
           rewrite (add_mapping_line_entry _ _ _ _ He). apply lookup_insert_eq.
        -- left. by exists b, l, a.
      * right. split; [|intros; apply Hno; by right].
        destruct (line_entry_dec x) as [(u & c & He)|Hx].
        -- rewrite (add_mapping_line_entry _ _ _ _ He).
           rewrite lookup_insert_ne; [done|]. intros ->.
           by apply (Hno x c); [left|].
        -- by rewrite (add_mapping_line_no_entry _ _ Hx).
Qed.

(** Reading line by line consumes the whole file, in order. *)
Lemma lines_concat content : foldr String.app EmptyString (QIODevice.lines content) = content.
Proof.
  induction content as [|c s IH]; simpl; [done|].
  destruct (Ascii.eqb c "010"); simpl; [by rewrite IH|].
  destruct (QIODevice.lines s) as [|ln lns]; [by destruct s|].
  by rewrite <- IH.
Qed.

End MappingFile.

(** C1.  [-namespaceMapping @file] opens the file named after the [@] and
    goes on with the mapping the file's lines leave.  The file is processed
    line by line; each line is trimmed; a line whose trimmed text starts with
    [#], has no [=], or has an empty side of its final [=] stores nothing;
    every other line stores the pair (text before the final [=], text after
    it).  Hence after the file a URI maps to the code of the last line that
    has an entry for it, or to what it mapped to before when there is none. *)
Theorem mapping_file_entries (content : string) (start : gmap string string) :
  (∀ env l file rest,
      open_read env file = Some content →
      parse_args env l ("-namespaceMapping" :: String "@" file :: rest) =
        parse_args env (set_nsmapping (read_mapping_file content (nsmapping l)) l) rest) ∧
  (∀ m line, QString.startsWith "#" (QByteArray.trimmed line) = true →
      add_mapping_line m line = m) ∧
  (∀ m line, QString.contains "=" (QByteArray.trimmed line) = false →
      add_mapping_line m line = m) ∧
  (∀ m line uri code,
      QString.startsWith "#" (QByteArray.trimmed line) = false →
      QByteArray.trimmed line = uri +:+ String "=" code →
      QString.contains "=" code = false →
      add_mapping_line m line =
        if negb (QString.isEmpty uri) && negb (QString.isEmpty code)
        then <[uri := code]> m else m) ∧
  (∀ uri code,
      read_mapping_file content start !! uri = Some code ↔
        (∃ before line after,
            QIODevice.lines content = before ++ line :: after ∧
            line_entry line uri code ∧
            ∀ line' code', line' ∈ after → ¬ line_entry line' uri code')
        ∨ (start !! uri = Some code ∧
           ∀ line' code', line' ∈ QIODevice.lines content → ¬ line_entry line' uri code')).
Proof.
  split; [|split; [|split; [|split]]].
  - intros env l file rest Hopen. simpl parse_args. unfold loop_body. simpl.
    unfold skip_first. by rewrite Hopen.
  - intros m line Hhash. apply add_mapping_line_no_entry.
    intros uri code (H & _). congruence.
  - intros m line Hno. apply add_mapping_line_no_entry.
    intros uri code (_ & Heq & _). by rewrite Heq, QStringFacts.contains_app in Hno.
  - intros m line uri code Hhash Heq Hcode. unfold add_mapping_line.
    rewrite Hhash, Heq.
    by rewrite QStringFacts.section_before_last, QStringFacts.section_after_last.
  - intros. apply foldl_add_mapping_line.
Qed.

Lemma mapping_file_entries_witness :
  (∃ l, parse_args sample_files initial_locals ["-namespaceMapping"; "@ns.map"] = Finished l ∧
        nsmapping l = read_mapping_file sample_mapping_file ∅) ∧
  read_mapping_file sample_mapping_file ∅ !! "http://example.org/a?x=1" = Some "exa" ∧
  read_mapping_file sample_mapping_file ∅ !! "urn:skipped" = None.
Proof.
  destruct (mapping_file_entries sample_mapping_file ∅) as (H0 & _ & _ & _ & H).
  split; [|split].
  - exists (set_nsmapping (read_mapping_file sample_mapping_file ∅) initial_locals).
    split; [|reflexivity].
    exact (H0 sample_files initial_locals "ns.map" [] eq_refl).
  - apply H. left.
    exists ["urn:orders=ord" +:+ String "010" EmptyString;
            "# urn:skipped=skip" +:+ String "010" EmptyString],
           ("  http://example.org/a?x=1=exa  " +:+ String "010" EmptyString),
           ["no separator" +:+ String "010" EmptyString;
            "=nothing" +:+ String "010" EmptyString].
    split; [reflexivity|]. split.
    + unfold line_entry. repeat split; try reflexivity; discriminate.
    + intros line' code' Hin [_ [Heq _]].
      rewrite !elem_of_cons, elem_of_nil in Hin.
      destruct Hin as [->|[->|[]]]; vm_compute in Heq.
      * destruct code' as [|? ?]; discriminate Heq.
      * discriminate Heq.
  - reflexivity.
Defined.
(** ** The option loop *)

(** Peels the [if] chain of the loop body, one goal per branch. *)
Ltac peel :=
  match goal with
  | |- context [loop_body _ _ ?l ?opt ?rest] =>
      unfold loop_body;
      repeat match goal with
      | |- context [if String.eqb opt ?a || String.eqb opt ?b then _ else _] =>
          destruct (String.eqb opt a || String.eqb opt b) eqn:?
      | |- context [if String.eqb opt ?a then _ else _] =>
          destruct (String.eqb opt a) eqn:?
      end;
      cbv zeta; cbv iota;
      repeat match goal with
      | |- context [if QString.startsWith ?c ?m then _ else _] =>
          destruct (QString.startsWith c m) eqn:?
      | |- context [match open_read ?e ?f with _ => _ end] =>
          destruct (open_read e f) eqn:?
      | |- context [match fileName l with _ => _ end] =>
          destruct (fileName l) eqn:?
      end
  end.

Section OptionLoop.
Context (env : Env).

Lemma list_ind2 {A} (P : list A → Prop) :
  P [] → (∀ a, P [a]) → (∀ a b l, P l → P (b :: l) → P (a :: b :: l)) →
  ∀ l, P l.
Proof.
  intros H0 H1 H2 l. cut (P l ∧ ∀ a, P (a :: l)); [tauto|].
  induction l as [|b l [IH1 IH2]]; [by split|].
  split; [apply IH2|]. intros a. by apply H2.
Qed.

(** Rewriting a local variable with its own value changes nothing. *)
Lemma set_optionalElementType_same l :
  set_optionalElementType (optionalElementType l) l = l.
Proof. by destruct l. Qed.

Lemma parse_optional_element_type_unknown optType current :
  optType ∉ optional_element_type_names →
  parse_optional_element_type optType current = current.
Proof.
  intros Hv. unfold parse_optional_element_type.
  destruct (String.eqb_spec optType "raw-pointer") as [->|_].
  { exfalso. apply Hv. set_solver. }
  destruct (String.eqb_spec optType "boost-optional") as [->|_].
  { exfalso. apply Hv. set_solver. }
  destruct (String.eqb_spec optType "std-optional") as [->|_]; [|done].
  exfalso. apply Hv. set_solver.
Qed.

(** As long as none of the three strategy names occurs on the command
    line, the strategy is never assigned a new value. *)
Lemma optionalElementType_kept args : ∀ l,
  (∀ v, v ∈ optional_element_type_names → v ∉ args) →
  optionalElementType (locals_at_end (parse_args env l args)) = optionalElementType l.
Proof.
  induction args as [|a|a b rest IH1 IH2] using list_ind2; intros l Hno.
  - done.
  - simpl. by peel.
  - assert (Hrest : ∀ v, v ∈ optional_element_type_names → v ∉ rest).
    { intros v Hv Hin. apply (Hno v Hv). by do 2 right. }
    assert (Hbrest : ∀ v, v ∈ optional_element_type_names → v ∉ b :: rest).
    { intros v Hv Hin. apply (Hno v Hv). by right. }
    assert (Hb : b ∉ optional_element_type_names).
    { intros Hv. apply (Hno b Hv). right; left. }
    simpl parse_args. peel;
      try (rewrite IH1 by done); try (rewrite IH2 by done); try done.
    simpl. by apply parse_optional_element_type_unknown.
Qed.

(** Flags that are only ever set to [true]. *)
Lemma useLocalFilesOnly_kept args : ∀ l,
  useLocalFilesOnly l = true →
  useLocalFilesOnly (locals_at_end (parse_args env l args)) = true.
Proof.
  induction args as [|a|a b rest IH1 IH2] using list_ind2; intros l Hl.
  - done.
  - simpl. by peel.
  - simpl parse_args. peel; try (apply IH1); try (apply IH2); done.
Qed.

Lemma outfileGiven_kept args : ∀ l,
  outfileGiven l = true →
  outfileGiven (locals_at_end (parse_args env l args)) = true.
Proof.
  induction args as [|a|a b rest IH1 IH2] using list_ind2; intros l Hl.
  - done.
  - simpl. by peel.
  - simpl parse_args. peel; try (apply IH1); try (apply IH2); done.
Qed.

(** Where the final [outputFile] comes from when no [-o] was given. *)
Lemma outputFile_from_both args : ∀ l l',
  parse_args env l args = Finished l' →
  outfileGiven l' = false →
  (outputFile l' = outputFile l ∧ both l' = both l) ∨
  (both l' = true ∧
   ∃ pre base post, args = pre ++ "-both" :: base :: post ∧ outputFile l' = base).
Proof.
  induction args as [|a|a b rest IH1 IH2] using list_ind2; intros l l'.
  - simpl. intros [= <-] _. by left.
  - simpl. peel; intros [= <-]; by left.
  - simpl parse_args. peel; intros Hfin Hout; try done.
    all: lazymatch type of Hfin with
    | parse_args _ (set_outputFile _ (set_outfileGiven _ _)) _ = _ =>
        pose proof (outfileGiven_kept rest
                      (set_outputFile b (set_outfileGiven true l)) eq_refl) as Hk;
        rewrite Hfin in Hk; simpl in Hk; congruence
    | parse_args _ (set_outputFile _ (set_both _ _)) _ = _ =>
        match goal with H : String.eqb _ "-both" = true |- _ =>
          apply String.eqb_eq in H as -> end;
        apply IH1 in Hfin as [[? ?]|(? & pre & base & post & -> & ?)]; [..|done];
        right; (split; [done|]);
        [by exists [], b, rest | by exists ("-both" :: b :: pre), base, post]
    | parse_args _ _ (_ :: _) = _ =>
        apply IH2 in Hfin as [[? ?]|(? & pre & base & post & Heq & ?)]; [..|done];
        [by left | right; split; [done|]; exists (a :: pre), base, post;
                   by rewrite Heq]
    | parse_args _ _ _ = _ =>
        apply IH1 in Hfin as [[? ?]|(? & pre & base & post & -> & ?)]; [..|done];
        [by left | right; split; [done|]; by exists (a :: b :: pre), base, post]
    end.
Qed.

(** Where the final [headerFile] comes from. *)
Lemma headerFile_from_impl args : ∀ l l',
  parse_args env l args = Finished l' →
  (headerFile l' = headerFile l ∧ impl l' = impl l) ∨
  (impl l' = true ∧
   ∃ pre header post, args = pre ++ "-impl" :: header :: post ∧ headerFile l' = header).
Proof.
  induction args as [|a|a b rest IH1 IH2] using list_ind2; intros l l'.
  - simpl. intros [= <-]. by left.
  - simpl. peel; intros [= <-]; by left.
  - simpl parse_args. peel; intros Hfin; try done.
    all: lazymatch type of Hfin with
    | parse_args _ (set_headerFile _ (set_impl _ _)) _ = _ =>
        match goal with H : String.eqb _ "-impl" = true |- _ =>
          apply String.eqb_eq in H as -> end;
        apply IH1 in Hfin as [[? ?]|(? & pre & base & post & -> & ?)];
        right; (split; [done|]);
        [by exists [], b, rest | by exists ("-impl" :: b :: pre), base, post]
    | parse_args _ _ (_ :: _) = _ =>
        apply IH2 in Hfin as [[? ?]|(? & pre & base & post & Heq & ?)];
        [by left | right; split; [done|]; exists (a :: pre), base, post;
                   by rewrite Heq]
    | parse_args _ _ _ = _ =>
        apply IH1 in Hfin as [[? ?]|(? & pre & base & post & -> & ?)];
        [by left | right; split; [done|]; by exists (a :: b :: pre), base, post]
    end.
Qed.

(** Arguments that the loop consumed entirely can be split off. *)
Lemma parse_args_app pre : ∀ l l1 rest,
  parse_args env l pre = Finished l1 →
  parse_args env l (pre ++ rest) = parse_args env l1 rest.
Proof.
  induction pre as [|a|a b pre IH1 IH2] using list_ind2; intros l l1 rest.
  - simpl. by intros [= ->].
  - simpl. peel; try done. all: by intros [= ->].
  - simpl app. simpl parse_args. peel; try done.
    all: intros Hfin; first [exact (IH2 _ _ _ Hfin) | exact (IH1 _ _ _ Hfin)].
Qed.

(** [-both] and [-impl], once seen, stay seen. *)
Lemma both_kept args : ∀ l,
  both l = true → both (locals_at_end (parse_args env l args)) = true.
Proof.
  induction args as [|a|a b rest IH1 IH2] using list_ind2; intros l Hl.
  - done.
  - simpl. by peel.
  - simpl parse_args. peel; try (apply IH1); try (apply IH2); done.
Qed.

Lemma impl_kept args : ∀ l,
  impl l = true → impl (locals_at_end (parse_args env l args)) = true.
Proof.
  induction args as [|a|a b rest IH1 IH2] using list_ind2; intros l Hl.
  - done.
  - simpl. by peel.
  - simpl parse_args. peel; try (apply IH1); try (apply IH2); done.
Qed.

End OptionLoop.
(** ** What the loop keeps *)

(** Closes a goal [a ∉ names] from the failed comparisons left by [peel]. *)
Ltac not_an_option :=
  let Hin := fresh "Hin" in
  intros Hin; unfold option_names in Hin;
  repeat (apply elem_of_cons in Hin as [->|Hin]; [simpl in *; congruence|]);
  by apply elem_of_nil in Hin.

(** The same for a literal argument. *)
Ltac literal_not_in :=
  let Hin := fresh "Hin" in
  intros Hin;
  repeat (apply elem_of_cons in Hin as [Hin|Hin]; [discriminate Hin|]);
  by apply elem_of_nil in Hin.

(** Picks the induction hypothesis that fits the arguments left. *)
Ltac use_IH IH1 IH2 H :=
  lazymatch type of H with
  | context [parse_args _ _ (_ :: _)] => apply IH2 in H
  | _ => apply IH1 in H
  end.

Lemma fileName_origin env args : ∀ l w,
  fileName (locals_at_end (parse_args env l args)) = Some w →
  fileName l = Some w ∨ (fileName l = None ∧ w ∈ args ∧ w ∉ option_names).
Proof.
  induction args as [|a|a b rest IH1 IH2] using list_ind2; intros l w.
  - simpl. by left.
  - simpl. peel; intros H; try (simpl in H; left; congruence).
    simpl in H. injection H as <-. right. split; [done|]. split; [by left|].
    not_an_option.
  - simpl parse_args. peel; intros H; try (simpl in H; left; congruence).
    all: use_IH IH1 IH2 H; simpl in H; destruct H as [H|(H1 & H2 & H3)].
    all: first
      [ by left
      | right; split; [done|]; split; [by right|done]
      | right; split; [done|]; split; [by do 2 right|done]
      | done
      | injection H as <-; right; split; [done|]; split; [by left|not_an_option] ].
Qed.

Lemma fileName_kept env args : ∀ l w,
  fileName l = Some w → fileName (locals_at_end (parse_args env l args)) = Some w.
Proof.
  induction args as [|a|a b rest IH1 IH2] using list_ind2; intros l w Hl.
  - done.
  - simpl. peel; simpl; congruence.
  - simpl parse_args. peel; try congruence.
    all: first [apply IH1 | apply IH2 | idtac]; simpl; congruence.
Qed.

(** ** Options in option position *)

(** Replays a turn of the loop along the branch that [peel] has chosen. *)
Ltac replay :=
  simpl parse_args; unfold loop_body;
  repeat match goal with
  | H : String.eqb _ _ || String.eqb _ _ = _ |- _ => rewrite H
  | H : String.eqb _ _ = _ |- _ => rewrite H
  | H : QString.startsWith _ _ = _ |- _ => rewrite H
  | H : open_read _ _ = _ |- _ => rewrite H
  | H : fileName _ = _ |- _ => rewrite H
  end;
  simpl; try reflexivity.

Section Position.
Context (env : Env).

Lemma option_at_here l opt rest : option_at env l (opt :: rest) opt.
Proof. by exists [], l, rest. Qed.

Lemma option_at_after l l' turn rest opt :
  parse_args env l turn = Finished l' →
  option_at env l' rest opt → option_at env l (turn ++ rest) opt.
Proof.
  intros Hturn (pre & l1 & post & -> & Hpre).
  exists (turn ++ pre), l1, post. split; [by rewrite app_assoc|].
  by rewrite (parse_args_app env _ _ _ _ Hturn).
Qed.

(** A switch that is set at the end was set at the start or by its option. *)
Lemma both_origin args : ∀ l l',
  parse_args env l args = Finished l' → both l' = true →
  both l = true ∨ option_at env l args "-both".
Proof.
  induction args as [|a|a b rest IH1 IH2] using list_ind2; intros l l'.
  - simpl. intros [= <-] ?. by left.
  - simpl. peel; intros [= <-] ?; by left.
  - simpl parse_args. peel; intros Hfin Hset; try done.
    all: lazymatch type of Hfin with
    | parse_args _ (set_outputFile _ (set_both _ _)) _ = _ =>
        match goal with H : String.eqb _ "-both" = true |- _ =>
          apply String.eqb_eq in H as -> end;
        right; apply option_at_here
    | parse_args _ ?l2 (_ :: _) = _ =>
        destruct (IH2 _ _ Hfin Hset) as [?|Hat]; [by left|right];
        apply (option_at_after l l2 [a]); [replay|done]
    | parse_args _ ?l2 _ = _ =>
        destruct (IH1 _ _ Hfin Hset) as [?|Hat]; [by left|right];
        apply (option_at_after l l2 [a; b]); [replay|done]
    end.
Qed.

Lemma impl_origin args : ∀ l l',
  parse_args env l args = Finished l' → impl l' = true →
  impl l = true ∨ option_at env l args "-impl".
Proof.
  induction args as [|a|a b rest IH1 IH2] using list_ind2; intros l l'.
  - simpl. intros [= <-] ?. by left.
  - simpl. peel; intros [= <-] ?; by left.
  - simpl parse_args. peel; intros Hfin Hset; try done.
    all: lazymatch type of Hfin with
    | parse_args _ (set_headerFile _ (set_impl _ _)) _ = _ =>
        match goal with H : String.eqb _ "-impl" = true |- _ =>
          apply String.eqb_eq in H as -> end;
        right; apply option_at_here
    | parse_args _ ?l2 (_ :: _) = _ =>
        destruct (IH2 _ _ Hfin Hset) as [?|Hat]; [by left|right];
        apply (option_at_after l l2 [a]); [replay|done]
    | parse_args _ ?l2 _ = _ =>
        destruct (IH1 _ _ Hfin Hset) as [?|Hat]; [by left|right];
        apply (option_at_after l l2 [a; b]); [replay|done]
    end.
Qed.



(** An option in option position sets its switch. *)
Lemma option_at_both args l l' :
  option_at env l args "-both" → parse_args env l args = Finished l' → both l' = true.
Proof.
  intros (pre & l1 & rest & -> & Hpre). rewrite (parse_args_app env _ _ _ _ Hpre).
  destruct rest as [|v rest]; [done|].
  change (parse_args env l1 ("-both" :: v :: rest))
    with (parse_args env (set_outputFile v (set_both true l1)) rest).
  intros Hfin.
  pose proof (both_kept env rest (set_outputFile v (set_both true l1)) eq_refl) as Hk.
  by rewrite Hfin in Hk.
Qed.

Lemma option_at_impl args l l' :
  option_at env l args "-impl" → parse_args env l args = Finished l' → impl l' = true.
Proof.
  intros (pre & l1 & rest & -> & Hpre). rewrite (parse_args_app env _ _ _ _ Hpre).
  destruct rest as [|v rest]; [done|].
  change (parse_args env l1 ("-impl" :: v :: rest))
    with (parse_args env (set_headerFile v (set_impl true l1)) rest).
  intros Hfin.
  pose proof (impl_kept env rest (set_headerFile v (set_impl true l1)) eq_refl) as Hk.
  by rewrite Hfin in Hk.
Qed.


End Position.
Section Main.
Context (env : Env).

Lemma eqb_or_elem (a x y : string) (args : list string) :
  String.eqb a x || String.eqb a y = true → x ∈ a :: args ∨ y ∈ a :: args.
Proof.
  intros [->%String.eqb_eq| ->%String.eqb_eq]%orb_true_iff; [left|right]; by left.
Qed.

(** The three ways in which [main] returns from inside the loop. *)
Lemma loop_return_cases args : ∀ l l' code err,
  parse_args env l args = Returned l' code err →
  (code = 1 ∧ Usage ∈ err) ∨
  (code = 0 ∧ err = [Usage] ∧ ("-h" ∈ args ∨ "-help" ∈ args)) ∨
  (code = 0 ∧ err = [VersionLine] ∧ ("-v" ∈ args ∨ "-version" ∈ args)).
Proof.
  assert (Hweak : ∀ (a : string) (xs : list string) code err,
    (code = 1 ∧ Usage ∈ err) ∨
    (code = 0 ∧ err = [Usage] ∧ ("-h" ∈ xs ∨ "-help" ∈ xs)) ∨
    (code = 0 ∧ err = [VersionLine] ∧ ("-v" ∈ xs ∨ "-version" ∈ xs)) →
    (code = 1 ∧ Usage ∈ err) ∨
    (code = 0 ∧ err = [Usage] ∧ ("-h" ∈ a :: xs ∨ "-help" ∈ a :: xs)) ∨
    (code = 0 ∧ err = [VersionLine] ∧ ("-v" ∈ a :: xs ∨ "-version" ∈ a :: xs))).
  { intros a xs code err [H|[(?&?&[?|?])|(?&?&[?|?])]]; [by left|..].
    - right; left. repeat split; [done..|]. left. by right.
    - right; left. repeat split; [done..|]. right. by right.
    - right; right. repeat split; [done..|]. left. by right.
    - right; right. repeat split; [done..|]. right. by right. }
  induction args as [|a|a b rest IH1 IH2] using list_ind2; intros l l' code err.
  - done.
  - simpl. peel; intros [= <- <- <-].
    all: first [ left; split; [done|]; set_solver
               | right; left; repeat split; [done..|]; by eapply eqb_or_elem
               | right; right; repeat split; [done..|]; by eapply eqb_or_elem ].
  - simpl parse_args. peel; intros Hret.
    all: lazymatch type of Hret with
    | parse_args _ _ (_ :: _) = _ => apply Hweak; by eapply IH2
    | parse_args _ _ _ = _ => do 2 apply Hweak; by eapply IH1
    | Returned _ _ _ = _ =>
        injection Hret as <- <- <-;
        first [ left; split; [done|]; set_solver
              | right; left; repeat split; [done..|]; by eapply eqb_or_elem
              | right; right; repeat split; [done..|]; by eapply eqb_or_elem ]
    end.
Qed.

(** An argument that is no option name reaches the last branch of the
    chain. *)
Lemma loop_body_positional continue l opt rest :
  opt ∉ option_names →
  loop_body env continue l opt rest =
    match fileName l with
    | None => continue (set_fileName (Some opt) l) rest
    | Some _ => Returned l 1 [Usage]
    end.
Proof.
  intros Hopt. unfold loop_body.
  repeat match goal with
  | |- context [String.eqb opt ?a] =>
      destruct (String.eqb_spec opt a) as [->|_];
      [exfalso; apply Hopt; unfold option_names; set_solver|]
  end.
  done.
Qed.

End Main.

Section FileName.
Import QString QStringFacts.

Lemma contains_append sep a b :
  contains sep (a +:+ b) = contains sep a || contains sep b.
Proof. induction a as [|c a IH]; simpl; [done|]. by rewrite IH, orb_assoc. Qed.

Lemma append_assoc (a b c : string) : (a +:+ b) +:+ c = a +:+ (b +:+ c).
Proof.
  induction a as [|x a IH]; [done|].
  change (String x ((a +:+ b) +:+ c) = String x (a +:+ b +:+ c)). by rewrite IH.
Qed.

(** The file name of [base] followed by an extension is the file name of
    [base] followed by that extension. *)
Lemma fileName_extension base ext :
  contains "/" ext = false →
  QFileInfo.fileName (base +:+ ext) = QFileInfo.fileName base +:+ ext.
Proof.
  intros Hext. unfold QFileInfo.fileName.
  destruct (contains "/" base) eqn:Hb.
  - destruct (last_sep_exists _ _ Hb) as (u & c & -> & Hc).
    rewrite append_assoc.
    change (String "/" c +:+ ext) with (String "/" (c +:+ ext)).
    rewrite !section_after_last; [done..|].
    by rewrite contains_append, Hc, Hext.
  - rewrite !section_last_none; [done..|].
    by rewrite contains_append, Hb, Hext.
Qed.

Lemma fileName_plain base :
  contains "/" base = false → QFileInfo.fileName base = base.
Proof. apply section_last_none. Qed.

End FileName.

Section Started.
Context (env : Env).


(** What reaches the lines after the loop when [main] starts the compiler. *)
Lemma main_started args s :
  main env args = Exec s →
  ∃ l wsdl, parse_args env initial_locals args = Finished l ∧
            fileName l = Some wsdl ∧ both_combined l = false ∧
            s = configure env l wsdl.
Proof.
  unfold main. destruct (parse_args env initial_locals args) as [l|]; [|done].
  destruct (fileName l) as [wsdl|] eqn:Hw; [|done].
  destruct (both_combined l) eqn:Hc; [done|].
  destruct (load_certificate env l); [done|]. intros [= <-]. by exists l, wsdl.
Qed.



End Started.

(** C2.  A run that starts the compiler is in exactly one of three modes.
    With [-both] in option position header and implementation are both
    generated, and after [-both <base>] they are named as the files
    [<base>.h] and [<base>.cpp] are named (their directory goes to
    [outputDirectory]).  With [-impl] in option position only the
    implementation is generated, and after [-impl <header>] the header file
    name recorded is [<header>].  With neither only the header is generated.
    The two flags are (true,true), (false,true), (true,false), and each mode
    is only entered through its option. *)
Theorem generation_mode (env : Env) (args : list string) (s : Settings.t) :
  main env args = Exec s →
  (option_given env args "-both" →
     Settings.generateHeader s = true ∧ Settings.generateImplementation s = true) ∧
  (∀ pre l1 base rest,
     args = pre ++ "-both" :: base :: rest →
     parse_args env initial_locals pre = Finished l1 → "-both" ∉ rest →
     Settings.headerFileName s = QFileInfo.fileName (base +:+ ".h") ∧
     Settings.implementationFileName s = QFileInfo.fileName (base +:+ ".cpp")) ∧
  (option_given env args "-impl" →
     Settings.generateHeader s = false ∧ Settings.generateImplementation s = true) ∧
  (∀ pre l1 header rest,
     args = pre ++ "-impl" :: header :: rest →
     parse_args env initial_locals pre = Finished l1 → "-impl" ∉ rest →
     Settings.headerFileName s = header) ∧
  (¬ option_given env args "-both" → ¬ option_given env args "-impl" →
     Settings.generateHeader s = true ∧ Settings.generateImplementation s = false) ∧
  ∃ l, parse_args env initial_locals args = Finished l ∧
    ((both l = true ∧
      Settings.generateHeader s = true ∧ Settings.generateImplementation s = true ∧
      ∃ pre base post, args = pre ++ "-both" :: base :: post ∧
        Settings.headerFileName s = QFileInfo.fileName (base +:+ ".h") ∧
        Settings.implementationFileName s = QFileInfo.fileName (base +:+ ".cpp")) ∨
     (both l = false ∧ impl l = true ∧
      Settings.generateHeader s = false ∧ Settings.generateImplementation s = true ∧
      ∃ pre header post, args = pre ++ "-impl" :: header :: post ∧
        Settings.headerFileName s = header) ∨
     (both l = false ∧ impl l = false ∧
      Settings.generateHeader s = true ∧ Settings.generateImplementation s = false)).
Proof.
  intros (l & wsdl & Hp & _ & Hc & ->)%main_started.
  unfold both_combined in Hc. split_and!.
  - intros Hgiven. unfold configure.
    by rewrite (option_at_both env _ _ _ Hgiven Hp).
  - intros pre l1 base rest -> Hpre Hlast.
    assert (Hboth : both l = true).
    { apply (option_at_both env (pre ++ "-both" :: base :: rest) initial_locals); [|done].
      by exists pre, l1, (base :: rest). }
    rewrite Hboth in Hc. simpl in Hc. apply orb_false_iff in Hc as [Hout _].
    rewrite (parse_args_app env _ _ _ _ Hpre) in Hp.
    change (parse_args env l1 ("-both" :: base :: rest))
      with (parse_args env (set_outputFile base (set_both true l1)) rest) in Hp.
    destruct (outputFile_from_both env _ _ _ Hp Hout)
      as [[Hbase _]|(_ & pre' & base' & post & -> & _)].
    + unfold configure. rewrite Hboth. simpl in *.
      by rewrite Hbase, !fileName_extension.
    + exfalso. apply Hlast. apply elem_of_app. right. by left.
  - intros Hgiven. pose proof (option_at_impl env _ _ _ Hgiven Hp) as Himpl.
    rewrite Himpl, orb_true_r, andb_true_r in Hc.
    unfold configure. by rewrite Hc, Himpl.
  - intros pre l1 header rest -> Hpre Hlast.
    assert (Himpl : impl l = true).
    { apply (option_at_impl env (pre ++ "-impl" :: header :: rest) initial_locals); [|done].
      by exists pre, l1, (header :: rest). }
    rewrite Himpl, orb_true_r, andb_true_r in Hc.
    rewrite (parse_args_app env _ _ _ _ Hpre) in Hp.
    change (parse_args env l1 ("-impl" :: header :: rest))
      with (parse_args env (set_headerFile header (set_impl true l1)) rest) in Hp.
    destruct (headerFile_from_impl env _ _ _ Hp)
      as [[Hheader _]|(_ & pre' & header' & post & -> & _)].
    + unfold configure. by rewrite Hc, Himpl.
    + exfalso. apply Hlast. apply elem_of_app. right. by left.
  - intros Hnoboth Hnoimpl. unfold configure.
    destruct (both l) eqn:Hboth.
    { by destruct (both_origin env _ _ _ Hp Hboth). }
    destruct (impl l) eqn:Himpl; [|done].
    by destruct (impl_origin env _ _ _ Hp Himpl).
  - exists l. split; [done|].
    destruct (both l) eqn:Hboth.
    + left. simpl in Hc. apply orb_false_iff in Hc as [Hout Himpl].
      destruct (outputFile_from_both env _ _ _ Hp Hout)
        as [[_ Hb]|(_ & pre & base & post & -> & Hbase)].
      { rewrite Hboth in Hb. done. }
      unfold configure. rewrite Hboth. simpl. repeat split; try done.
      exists pre, base, post. rewrite Hbase, !fileName_extension by done. done.
    + destruct (impl l) eqn:Himpl.
      * right; left.
        destruct (headerFile_from_impl env _ _ _ Hp)
          as [[_ Hi]|(_ & pre & header & post & -> & Hh)].
        { rewrite Himpl in Hi. done. }
        unfold configure. rewrite Hboth, Himpl. simpl. repeat split; try done.
        by exists pre, header, post.
      * right; right. unfold configure. rewrite Hboth, Himpl. done.
Qed.

Lemma generation_mode_witness :
  (main no_files ["-both"; "out/soap"; "service.wsdl"]
     = Exec (configure no_files both_run_locals "service.wsdl") ∧
   Settings.generateHeader (configure no_files both_run_locals "service.wsdl") = true ∧
   Settings.generateImplementation (configure no_files both_run_locals "service.wsdl") = true ∧
   Settings.headerFileName (configure no_files both_run_locals "service.wsdl") = "soap.h" ∧
   Settings.implementationFileName (configure no_files both_run_locals "service.wsdl")
     = "soap.cpp") ∧
  (main no_files ["-o"; "gen/impl.cpp"; "-impl"; "soap.h"; "service.wsdl"]
     = Exec (configure no_files impl_run_locals "service.wsdl") ∧
   Settings.generateHeader (configure no_files impl_run_locals "service.wsdl") = false ∧
   Settings.generateImplementation (configure no_files impl_run_locals "service.wsdl") = true ∧
   Settings.headerFileName (configure no_files impl_run_locals "service.wsdl") = "soap.h").
Proof.
  split.
  - destruct (generation_mode no_files ["-both"; "out/soap"; "service.wsdl"]
                (configure no_files both_run_locals "service.wsdl") eq_refl)
      as (Hmode & Hnames & _).
    split; [reflexivity|].
    destruct Hmode as [Hh Hi]; [by exists [], initial_locals, ["out/soap"; "service.wsdl"]|].
    destruct (Hnames [] initial_locals "out/soap" ["service.wsdl"] eq_refl eq_refl)
      as [Hhn Hin]; [literal_not_in|].
    split_and!; [exact Hh|exact Hi|exact Hhn|exact Hin].
  - destruct (generation_mode no_files
                ["-o"; "gen/impl.cpp"; "-impl"; "soap.h"; "service.wsdl"]
                (configure no_files impl_run_locals "service.wsdl") eq_refl)
      as (_ & _ & Hmode & Hname & _).
    split; [reflexivity|].
    destruct Hmode as [Hh Hi].
    { by exists ["-o"; "gen/impl.cpp"],
                (set_outputFile "gen/impl.cpp" (set_outfileGiven true initial_locals)),
                ["soap.h"; "service.wsdl"]. }
    split_and!; [exact Hh|exact Hi|].
    apply (Hname ["-o"; "gen/impl.cpp"]
             (set_outputFile "gen/impl.cpp" (set_outfileGiven true initial_locals))
             "soap.h" ["service.wsdl"]); [reflexivity..|literal_not_in].
Defined.




(** C9.  An [-optional-element-type] value other than the three strategy
    names is passed over in silence: nothing is printed, [main] does not
    return, and the loop goes on with every local, the strategy included,
    as it was; from the default the strategy therefore stays [ENone], and it
    is [ENone] at the end of every run that names no strategy. *)
Theorem unknown_optional_element_type_ignored
    (env : Env) (l : Locals) (optType : string) (rest : list string) :
  optType ∉ optional_element_type_names →
  parse_args env l ("-optional-element-type" :: optType :: rest) = parse_args env l rest ∧
  parse_optional_element_type optType Settings.ENone = Settings.ENone ∧
  (∀ args, (∀ v, v ∈ optional_element_type_names → v ∉ args) →
     optionalElementType (locals_at_end (parse_args env initial_locals args))
       = Settings.ENone).
Proof.
  intros Hv. split; [|split].
  - simpl. unfold loop_body. simpl.
    rewrite parse_optional_element_type_unknown by done.
    by rewrite set_optionalElementType_same.
  - by apply parse_optional_element_type_unknown.
  - intros args Hargs. by rewrite optionalElementType_kept.
Qed.

Lemma unknown_optional_element_type_ignored_witness :
  parse_args no_files initial_locals
    ["-optional-element-type"; "qt-optional"; "service.wsdl"]
  = parse_args no_files initial_locals ["service.wsdl"].
Proof.
  apply (unknown_optional_element_type_ignored no_files initial_locals "qt-optional").
  unfold optional_element_type_names. rewrite !elem_of_cons, elem_of_nil.
  intros H. repeat (destruct H as [H|H]; [discriminate H|]). done.
Defined.

(** C10.  A literal [-namespaceMapping] argument (one that does not start
    with [@]) always stores an entry: the text before its final [=] mapped
    to the text after it, whether or not either is empty; an argument with
    no [=] maps the empty URI to the whole argument. *)
Theorem literal_mapping_stored
    (env : Env) (l : Locals) (mapping : string) (rest : list string) :
  QString.startsWith "@" mapping = false →
  ∃ uri code,
    parse_args env l ("-namespaceMapping" :: mapping :: rest)
      = parse_args env (set_nsmapping (<[uri := code]> (nsmapping l)) l) rest ∧
    (∀ u c, mapping = u +:+ String "=" c → QString.contains "=" c = false →
       uri = u ∧ code = c) ∧
    (QString.contains "=" mapping = false → uri = EmptyString ∧ code = mapping).
Proof.
  intros Hat.
  exists (QString.section "=" 0 (-2) mapping), (QString.section "=" (-1) (-1) mapping).
  split; [|split].
  - simpl. unfold loop_body. simpl. by rewrite Hat.
  - intros u c -> Hc.
    by rewrite QStringFacts.section_before_last, QStringFacts.section_after_last.
  - intros Hno.
    by rewrite QStringFacts.section_before_none, QStringFacts.section_last_none.
Qed.

Lemma literal_mapping_stored_witness :
  nsmapping (locals_at_end (parse_args no_files initial_locals ["-namespaceMapping"; "="]))
    !! EmptyString = Some EmptyString.
Proof.
  destruct (literal_mapping_stored no_files initial_locals "=" [] eq_refl)
    as (uri & code & -> & Hsplit & _).
  destruct (Hsplit EmptyString EmptyString eq_refl eq_refl) as [-> ->].
  reflexivity.
Defined.

(** * The stages *)

(** ** Namespace Mapper *)

Section Mapper.
Import NamespaceMapper.
Context (user : gmap string string) (all : list string).

Let reserved := reserved_codes user all.
Local Abbreviation assigned := (assigned user all).

Lemma reserved_elem ns c : ns ∈ all → user !! ns = Some c → c ∈ reserved.
Proof.
  intros Hns Hc. unfold reserved, reserved_codes.
  rewrite elem_of_list_to_set, list_elem_of_omap. eauto.
Qed.

Lemma fresh_code_fresh candidate taken : fresh_code candidate taken ∉ taken.
Proof. apply fresh_string_of_set_fresh. Qed.

(** A code that is not in use can be given to a namespace without one, if
    it is the user's code for it or is not reserved. *)
Lemma assigned_insert used codes ns code :
  assigned used codes → ns ∈ all → codes !! ns = None → code ∉ used →
  user !! ns = Some code ∨
    ((∀ c, user !! ns = Some c → ¬ ∀ ns', ns' ∈ all → user !! ns' = Some c → ns' = ns) ∧
     code ∉ reserved) →
  assigned ({[code]} ∪ used) (<[ns := code]> codes).
Proof.
  intros (Hu & Ho & Hp & Hi & Hh) Hns Hfree Hnew Hcode. split_and!.
  - intros n c [[-> ->]|[_ H]]%lookup_insert_Some.
    + apply elem_of_union_l. by apply elem_of_singleton.
    + apply elem_of_union_r. by eapply Hu.
  - intros c [->%elem_of_singleton|Hc]%elem_of_union.
    + destruct Hcode as [Huser|[_ Hres]]; [left|by right].
      exists ns. by rewrite lookup_insert_eq.
    + destruct (Ho c Hc) as [(n & Hn & Hun)|?]; [left|by right].
      exists n. split; [|done]. rewrite lookup_insert_ne; [done|]. congruence.
  - intros n [<-|[_ H]]%lookup_insert_is_Some; [done|by apply Hp].
  - intros n1 n2 c [[<- <-]|[Hn1 H1]]%lookup_insert_Some
                   [[<- Hc2]|[Hn2 H2]]%lookup_insert_Some; try done.
    + exfalso. apply Hnew. by eapply Hu.
    + subst c. exfalso. apply Hnew. by eapply Hu.
    + by eapply Hi.
  - intros n c c' [[<- <-]|[Hn H]]%lookup_insert_Some Hun Honly.
    + destruct Hcode as [Huser|[Hshared _]]; [congruence|].
      destruct (Hshared c Hun Honly).
    + by eapply Hh.
Qed.

Lemma assign_assigned present : ∀ used codes,
  (∀ ns, ns ∈ present → ns ∈ all) →
  assigned used codes →
  ∃ used', assigned used' (assign user reserved present used codes) ∧
    (∀ ns, is_Some (assign user reserved present used codes !! ns) ↔
           is_Some (codes !! ns) ∨ ns ∈ present).
Proof.
  induction present as [|ns rest IH]; intros used codes Hall Ha; simpl.
  { exists used. split; [done|]. intros ns. rewrite elem_of_nil. tauto. }
  assert (Hrest : ∀ n, n ∈ rest → n ∈ all) by (intros; apply Hall; by right).
  assert (Hns : ns ∈ all) by (apply Hall; by left).
  destruct (codes !! ns) as [c0|] eqn:Hfree.
  { destruct (IH used codes Hrest Ha) as (u' & Ha' & Hdom).
    exists u'. split; [done|]. intros n. rewrite Hdom, elem_of_cons.
    split; [tauto|]. intros [?|[->|?]]; [tauto| |tauto]. left. by rewrite Hfree. }
  match goal with
  | |- context [assign user reserved rest ({[?c]} ∪ used) _] => set (code := c)
  end.
  destruct (IH ({[code]} ∪ used) (<[ns := code]> codes) Hrest) as (u' & Ha' & Hdom).
  { subst code. destruct (user !! ns) as [c|] eqn:Huser.
    - case_bool_decide as Hused.
      + apply assigned_insert; try done.
        * intros Hin. eapply fresh_code_fresh. apply elem_of_union_r, Hin.
        * right. split.
          2: { intros Hin. eapply fresh_code_fresh. apply elem_of_union_l, Hin. }
          intros c' Hc' Honly. rewrite Huser in Hc'. injection Hc' as <-.
          destruct Ha as (_ & Ho & Hp & _).
          destruct (Ho c Hused) as [(n & Hn & Hun)|Hres].
          -- assert (n = ns) as -> by (apply Honly; [apply Hp; by exists c|done]).
             congruence.
          -- apply Hres. by eapply reserved_elem.
      + apply assigned_insert; try done. by left.
    - apply assigned_insert; try done.
      + intros Hin. eapply fresh_code_fresh. apply elem_of_union_r, Hin.
      + right. split; [intros c' Hc'; congruence|].
        intros Hin. eapply fresh_code_fresh. apply elem_of_union_l, Hin. }
  exists u'. split; [done|]. intros n.
  rewrite Hdom, lookup_insert_is_Some, elem_of_cons.
  destruct (decide (ns = n)); intuition (subst; auto).
Qed.

End Mapper.

Section MapperInput.
Import NamespaceMapper.

(** The Mapper reads the user mapping only at the namespaces in play. *)
Lemma reserved_codes_ext user user' present :
  (∀ ns, ns ∈ present → user' !! ns = user !! ns) →
  reserved_codes user' present = reserved_codes user present.
Proof.
  intros Hsame. unfold reserved_codes. f_equal.
  induction present as [|ns rest IH]; [done|]. csimpl.
  rewrite (Hsame ns) by left. rewrite IH; [done|]. intros; apply Hsame; by right.
Qed.

Lemma assign_ext user user' reserved present : ∀ used codes,
  (∀ ns, ns ∈ present → user' !! ns = user !! ns) →
  assign user' reserved present used codes = assign user reserved present used codes.
Proof.
  induction present as [|ns rest IH]; intros used codes Hsame; [done|]. simpl.
  rewrite (Hsame ns) by left.
  destruct (codes !! ns); apply IH; intros; apply Hsame; by right.
Qed.

Lemma namespace_codes_assigned user present :
  ∃ used, assigned user (elements present) used (namespace_codes user present) ∧
    ∀ ns, is_Some (namespace_codes user present !! ns) ↔ ns ∈ present.
Proof.
  destruct (assign_assigned user (elements present) (elements present) ∅ ∅)
    as (u & Ha & Hdom); [done| |].
  { unfold assigned. split_and!;
      [ intros ns c H; by rewrite lookup_empty in H
      | intros c H; by apply elem_of_empty in H
      | intros ns [c H]; by rewrite lookup_empty in H
      | intros n1 n2 c H; by rewrite lookup_empty in H
      | intros ns c c' H; by rewrite lookup_empty in H ]. }
  exists u. split; [done|]. intros ns. unfold namespace_codes.
  rewrite (Hdom ns), lookup_empty, elem_of_elements.
  split; [intros [[? ?]|?]; done|by right].
Qed.

Lemma elem_of_namespaces_in_play documents ns :
  ns ∈ namespaces_in_play documents ↔ ∃ d, d ∈ documents ∧ d_namespace d = ns.
Proof.
  unfold namespaces_in_play. rewrite elem_of_list_to_set, list_elem_of_fmap.
  split; intros (d & ? & ?); exists d; by split.
Qed.

End MapperInput.

(** C6.  The codes the Namespace Mapper assigns are a bijection between the
    namespaces of the loaded documents and the codes given out: every such
    namespace, and no other, gets a code, and no two namespaces get the same
    code, whatever the user mapping says.  The codes depend on nothing but
    the set of the namespaces in play and the user's codes for them: the
    same documents in another order, or loaded twice, and a mapping
    configuration that agrees on these namespaces, give the same codes.  A
    namespace whose user code no other namespace in play shares gets that
    code. *)
Theorem namespace_codes_assignment
    (user : gmap string string) (documents : list SchemaDocument) :
  let codes := NamespaceMapper.namespace_codes user (namespaces_in_play documents) in
  (∀ ns, is_Some (codes !! ns) ↔ ∃ d, d ∈ documents ∧ d_namespace d = ns) ∧
  (∀ n1 n2 c, codes !! n1 = Some c → codes !! n2 = Some c → n1 = n2) ∧
  (∀ user' documents',
     (∀ ns, (∃ d, d ∈ documents' ∧ d_namespace d = ns) ↔
            (∃ d, d ∈ documents ∧ d_namespace d = ns)) →
     (∀ d, d ∈ documents → user' !! d_namespace d = user !! d_namespace d) →
     NamespaceMapper.namespace_codes user' (namespaces_in_play documents') = codes) ∧
  (∀ d c, d ∈ documents → user !! d_namespace d = Some c →
     (∀ d', d' ∈ documents → user !! d_namespace d' = Some c →
            d_namespace d' = d_namespace d) →
     codes !! d_namespace d = Some c).
Proof.
  cbv zeta.
  destruct (namespace_codes_assigned user (namespaces_in_play documents))
    as (used & (_ & _ & _ & Hinj & Hhonour) & Hdom).
  split_and!.
  - intros ns. by rewrite Hdom, elem_of_namespaces_in_play.
  - exact Hinj.
  - intros user' documents' Hsame Huser.
    assert (namespaces_in_play documents' = namespaces_in_play documents) as ->.
    { apply set_eq. intros ns. by rewrite !elem_of_namespaces_in_play. }
    assert (Hagree : ∀ ns, ns ∈ elements (namespaces_in_play documents) →
                           user' !! ns = user !! ns).
    { intros ns (d & Hd & <-)%elem_of_elements%elem_of_namespaces_in_play.
      by apply Huser. }
    unfold NamespaceMapper.namespace_codes. cbv zeta.
    by rewrite (reserved_codes_ext user user' _ Hagree), (assign_ext user user' _ _ _ _ Hagree).
  - intros d c Hd Huser Honly.
    destruct (proj2 (Hdom (d_namespace d))) as [c' Hc'].
    { apply elem_of_namespaces_in_play. by exists d. }
    rewrite Hc'. f_equal. apply (Hhonour (d_namespace d)); [done..|].
    intros ns' (d' & Hd' & <-)%elem_of_elements%elem_of_namespaces_in_play Hu'.
    by apply Honly.
Qed.

Lemma namespace_codes_assignment_witness :
  (∃ c1 c2,
     NamespaceMapper.codeFor sample_user_mapping (namespaces_in_play sample_documents)
       "urn:orders" = Some c1 ∧
     NamespaceMapper.codeFor sample_user_mapping (namespaces_in_play sample_documents)
       "http://example.org/v1/types" = Some c2 ∧ c1 ≠ c2) ∧
  NamespaceMapper.namespace_codes sample_user_mapping
    (namespaces_in_play (reverse sample_documents ++ sample_documents))
  = NamespaceMapper.namespace_codes sample_user_mapping (namespaces_in_play sample_documents).
Proof.
  destruct (namespace_codes_assignment sample_user_mapping sample_documents)
    as (Htotal & Hinj & Hsame & _).
  split.
  - destruct (proj2 (Htotal "urn:orders")) as [c1 H1].
    { eexists. split; [by left|reflexivity]. }
    destruct (proj2 (Htotal "http://example.org/v1/types")) as [c2 H2].
    { eexists. split; [right; by left|reflexivity]. }
    exists c1, c2. split; [exact H1|]. split; [exact H2|].
    intros ->. discriminate (Hinj _ _ _ H1 H2).
  - apply Hsame; [|done].
    intros ns. split; intros (d & Hd & <-); exists d; (split; [|done]).
    + apply elem_of_app in Hd as [Hd%elem_of_reverse|Hd]; done.
    + apply elem_of_app. by right.
Defined.
(** ** Document Store, Import Resolver and the run *)

Section LocalFilesOnly.
Context (env : Env).

(** [-use-local-files-only] in option position reaches the settings. *)
Lemma use_local_files_only_set pre l1 rest s :
  parse_args env initial_locals pre = Finished l1 →
  main env (pre ++ "-use-local-files-only" :: rest) = Exec s →
  Settings.useLocalFilesOnly s = true.
Proof.
  intros Hpre. unfold main. rewrite (parse_args_app env _ _ _ _ Hpre).
  pose proof (useLocalFilesOnly_kept env rest (set_useLocalFilesOnly true l1) eq_refl)
    as Hkept.
  change (parse_args env l1 ("-use-local-files-only" :: rest))
    with (parse_args env (set_useLocalFilesOnly true l1) rest).
  destruct (parse_args env (set_useLocalFilesOnly true l1) rest) as [l|]; [|done].
  simpl in Hkept. destruct (fileName l); [|done].
  destruct (both_combined l); [done|].
  destruct (load_certificate env l); [done|]. intros [= <-].
  unfold configure. by destruct (both l), (impl l).
Qed.

End LocalFilesOnly.

Section Store.
Import DocumentStore ImportResolver.
Context (cfg : Settings.t) (w : World).

Lemma probe_all_None importPaths locator :
  (∀ p, p ∈ importPaths → local_file w (probe p locator) = None) →
  probe_all w importPaths locator = None.
Proof.
  induction importPaths as [|p ps IH]; intros H; simpl; [done|].
  rewrite (H p) by left. apply IH. intros; apply H; by right.
Qed.

(** The Document Store under local-files-only. *)
Lemma resolve_local_files_only locator :
  Settings.useLocalFilesOnly cfg = true →
  is_remote locator = true →
  (∀ p, p ∈ Settings.importPathList cfg → local_file w (probe p locator) = None) →
  resolve cfg w locator = inl (FetchError locator).
Proof.
  intros Hflag Hremote Hprobe. unfold resolve.
  by rewrite Hremote, probe_all_None, Hflag.
Qed.

(** An error met after [n] good steps is how the closure ends. *)
Lemma closure_error n : ∀ st st' locator rest e fuel,
  after_steps cfg w n st = Some st' →
  pending st' = locator :: rest →
  step cfg w locator rest st' = inl e →
  (n < fuel)%nat →
  closure cfg w fuel st = Some (inl e).
Proof.
  induction n as [|n IH]; intros st st' locator rest e fuel; simpl.
  - intros [= <-] Hpending Hstep Hfuel.
    destruct fuel as [|fuel]; [lia|]. simpl. by rewrite Hpending, Hstep.
  - destruct (pending st) as [|l0 r0] eqn:Hp0; [done|].
    destruct (step cfg w l0 r0 st) as [|st1] eqn:Hs0; [done|].
    intros Hafter Hpending Hstep Hfuel.
    destruct fuel as [|fuel]; [lia|]. simpl. rewrite Hp0, Hs0.
    eapply IH; eauto. lia.
Qed.

End Store.

(** C7.  With [-use-local-files-only] given, when the Import Resolver comes
    to a locator that is a remote URI, was not loaded before, and is found
    under none of the import paths, the Document Store fails with the fetch
    error for that locator instead of fetching it, and the run ends with
    that error and without output. *)
Theorem local_files_only_fetch_error
    (env : Env) (pre rest : list string) (l1 : Locals) (s : Settings.t)
    (w : World) (n : nat) (st : ImportResolver.State)
    (locator : string) (others : list string) :
  parse_args env initial_locals pre = Finished l1 →
  main env (pre ++ "-use-local-files-only" :: rest) = Exec s →
  ImportResolver.after_steps s w n
    {| ImportResolver.pending := [Settings.wsdlFile s]; ImportResolver.loaded := [] |}
    = Some st →
  ImportResolver.pending st = locator :: others →
  ImportResolver.is_loaded st locator = false →
  DocumentStore.is_remote locator = true →
  (∀ p, p ∈ Settings.importPathList s →
        local_file w (DocumentStore.probe p locator) = None) →
  DocumentStore.resolve s w locator = inl (FetchError locator) ∧
  ∀ fuel, (n < fuel)%nat →
    ∃ r, run w fuel s = Some r ∧ r = Failed (FetchError locator) ∧ output r = [].
Proof.
  intros Hpre Hmain Hafter Hpending Hnew Hremote Hprobe.
  pose proof (use_local_files_only_set env _ _ _ _ Hpre Hmain) as Hflag.
  pose proof (resolve_local_files_only s w locator Hflag Hremote Hprobe) as Hres.
  split; [done|]. intros fuel Hfuel. exists (Failed (FetchError locator)).
  split; [|done]. unfold run.
  erewrite closure_error; eauto.
  unfold ImportResolver.step. by rewrite Hnew, Hres.
Qed.

Lemma local_files_only_fetch_error_witness :
  DocumentStore.probe "imports" sample_import = "imports/example.org/schemas/types.xsd" ∧
  (∃ s, main no_files ["-import-path"; "imports"; "-use-local-files-only"; "service.wsdl"]
          = Exec s ∧
        run sample_world 2 s = Some (Failed (FetchError sample_import))) ∧
  (∃ s classes, main no_files ["-import-path"; "imports"; "service.wsdl"] = Exec s ∧
        run sample_world 3 s = Some (Produced classes) ∧ List.length classes = 2%nat).
Proof.
  split; [reflexivity|]. split.
  - eexists. split; [vm_compute; reflexivity|].
    edestruct (local_files_only_fetch_error no_files
                 ["-import-path"; "imports"] ["service.wsdl"]
                 (set_importPathList ["imports"] initial_locals) _ sample_world 1
                 {| ImportResolver.pending := [sample_import];
                    ImportResolver.loaded :=
                      [{| d_locator := "service.wsdl"; d_namespace := "urn:wsdl";
                          d_imports := [sample_import]; d_types := [] |}] |}
                 sample_import []
                 eq_refl eq_refl eq_refl eq_refl eq_refl eq_refl) as [_ H].
    { intros p Hp. apply list_elem_of_singleton in Hp as ->. reflexivity. }
    destruct (H 2%nat) as (r & Hr & -> & _); [lia|]. exact Hr.
  - eexists _, _. split; [vm_compute; reflexivity|]. split; vm_compute; reflexivity.
Defined.
(** ** Dependency Orderer *)

Section Orderer.
Import DependencyOrderer.
Implicit Types (g : TypeGraph) (u v d : QualifiedName).
Implicit Types (E R S trail : list QualifiedName).

(** *** The graph *)

Lemma nodes_elem g u : u ∈ nodes g ↔ is_Some (g !! u).
Proof.
  unfold nodes. rewrite list_elem_of_fmap. split.
  - intros ([k n] & -> & H%elem_of_map_to_list). by exists n.
  - intros [n H]. exists (u, n). split; [done|]. by apply elem_of_map_to_list.
Qed.

Lemma nodes_NoDup g : NoDup (nodes g).
Proof. apply NoDup_fst_map_to_list. Qed.

Lemma retained_true g u : retained g u = true ↔ is_Some (g !! u).
Proof.
  unfold retained. destruct (g !! u); split; done.
Qed.

Lemma contains_retained g u v : contains_by_value g u v → is_Some (g !! u).
Proof.
  unfold contains_by_value, deps. destruct (g !! u); [by eexists|].
  by intros ?%elem_of_nil.
Qed.

Lemma tc_contains_retained g u v : tc (contains_by_value g) u v → is_Some (g !! u).
Proof. destruct 1; by eapply contains_retained. Qed.

Lemma forallb_false_elem {A} (f : A → bool) (l : list A) :
  forallb f l = false → ∃ x, x ∈ l ∧ f x = false.
Proof.
  induction l as [|a l IH]; simpl; [done|].
  destruct (f a) eqn:Ha; simpl.
  - intros (x & ? & ?)%IH. exists x. split; [by right|done].
  - intros _. exists a. split; [by left|done].
Qed.

Lemma ready_true g E u v :
  ready g E u = true → contains_by_value g u v → is_Some (g !! v) → v ∈ E.
Proof.
  unfold ready. rewrite forallb_forall. intros H Hv Hret.
  specialize (H v). rewrite <- list_elem_of_In in H. specialize (H Hv).
  apply orb_true_iff in H as [H|H].
  - by apply bool_decide_eq_true in H.
  - apply retained_true in Hret. by rewrite Hret in H.
Qed.

Lemma ready_false g E u :
  ready g E u = false → ∃ d, contains_by_value g u d ∧ is_Some (g !! d) ∧ d ∉ E.
Proof.
  intros (d & Hd & H)%forallb_false_elem. exists d.
  apply orb_false_iff in H as [H1 H2]. split; [done|]. split.
  - apply retained_true. by destruct (retained g d).
  - by apply bool_decide_eq_false in H1.
Qed.

(** *** Topological sort *)

Lemma in_dependency_order_snoc g E u :
  in_dependency_order g E → ready g E u = true → in_dependency_order g (E ++ [u]).
Proof.
  intros HE Hready i x v Hi Hv Hret.
  destruct (decide (i < length E)%nat) as [Hlt|Hge].
  - rewrite lookup_app_l in Hi by done.
    destruct (HE i x v Hi Hv Hret) as (j & Hj & Hjv).
    exists j. split; [done|]. rewrite lookup_app_l by lia. done.
  - rewrite lookup_app_r in Hi by lia.
    destruct (i - length E)%nat as [|k] eqn:Hk; [|by destruct k].
    injection Hi as <-.
    pose proof (ready_true _ _ _ _ Hready Hv Hret) as Hin.
    apply list_elem_of_lookup in Hin as [j Hj]. exists j.
    pose proof (lookup_lt_Some _ _ _ Hj). split; [lia|].
    by rewrite lookup_app_l.
Qed.

Lemma emit_spec g fuel : ∀ R E o S,
  E ++ R ≡ₚ nodes g → in_dependency_order g E → (length R ≤ fuel)%nat →
  emit g fuel R E = (o, S) →
  o ++ S ≡ₚ nodes g ∧ in_dependency_order g o ∧ ∀ u, u ∈ S → ready g o u = false.
Proof.
  induction fuel as [|fuel IH]; intros R E o S Hperm HE Hlen; simpl.
  - intros [= <- <-]. destruct R; [|simpl in Hlen; lia].
    split; [done|]. split; [done|]. by intros u ?%elem_of_nil.
  - destruct (list_find (λ u, ready g E u = true) R) as [[i u]|] eqn:Hfind.
    + apply list_find_Some in Hfind as (Hi & Hready & _).
      apply IH.
      * rewrite <- Hperm, <- app_assoc. simpl. f_equiv.
        symmetry. by apply delete_Permutation.
      * by apply in_dependency_order_snoc.
      * rewrite length_delete by eauto. lia.
    + intros [= <- <-]. split; [done|]. split; [done|].
      intros u Hu. rewrite list_find_None, Forall_forall in Hfind.
      specialize (Hfind u Hu). by destruct (ready g E u).
Qed.

Lemma emitted_all_topological g o :
  o ≡ₚ nodes g → in_dependency_order g o → topological_order g o.
Proof.
  intros Hperm Ho. split; [|split].
  - rewrite Hperm. apply nodes_NoDup.
  - intros u. by rewrite Hperm, nodes_elem.
  - done.
Qed.

(** *** A topological order rules out cycles *)

Lemma topological_order_before g o u w i :
  topological_order g o → tc (contains_by_value g) u w → is_Some (g !! w) →
  o !! i = Some u → ∃ j, (j < i)%nat ∧ o !! j = Some w.
Proof.
  intros (Hnd & Hall & Hord) Htc. revert i.
  induction Htc as [u w Huw|u x w Hux Hxw IH]; intros i Hw Hi.
  - by eapply Hord.
  - pose proof (tc_contains_retained _ _ _ Hxw) as Hx.
    destruct (Hord i u x Hi Hux Hx) as (k & Hk & Hkx).
    destruct (IH k Hw Hkx) as (j & Hj & Hjw). exists j. split; [lia|done].
Qed.

Lemma topological_order_acyclic g o : topological_order g o → acyclic g.
Proof.
  intros Ho u Hcyc. pose proof (tc_contains_retained _ _ _ Hcyc) as Hu.
  pose proof Ho as (Hnd & Hall & _).
  pose proof Hu as Hi. apply Hall, list_elem_of_lookup in Hi. destruct Hi as [i Hi].
  destruct (topological_order_before _ _ _ _ _ Ho Hcyc Hu Hi) as (j & Hj & Hju).
  pose proof (NoDup_lookup _ _ _ _ Hnd Hi Hju). lia.
Qed.

(** *** Cycle detection *)

Lemma next_Some g S u d : next g S u = Some d → contains_by_value g u d ∧ d ∈ S.
Proof.
  unfold next. destruct (list_find (λ d, d ∈ S) (deps g u)) as [[i x]|] eqn:H; [|done].
  simpl. intros [= <-]. apply list_find_Some in H as (Hi & HS & _).
  split; [|done]. unfold contains_by_value. by eapply list_elem_of_lookup_2.
Qed.

Lemma next_is_Some g S u d : contains_by_value g u d → d ∈ S → is_Some (next g S u).
Proof.
  intros Hd HS. unfold next.
  destruct (list_find_elem_of (λ d, d ∈ S) (deps g u) d Hd HS) as [[i x] ->].
  by eexists.
Qed.

(** Among the types left over, each contains another one of them. *)
Lemma stuck_next g o S u :
  o ++ S ≡ₚ nodes g → (∀ u, u ∈ S → ready g o u = false) → u ∈ S →
  is_Some (next g S u).
Proof.
  intros Hperm Hstuck Hu.
  destruct (ready_false _ _ _ (Hstuck u Hu)) as (d & Hd & Hret & Ho).
  apply (next_is_Some _ _ _ d Hd).
  apply nodes_elem in Hret. rewrite <- Hperm in Hret.
  by apply elem_of_app in Hret as [?|?].
Qed.

Lemma trail_edges_take_through d trail e :
  e ∈ trail_edges (take_through d trail) → e ∈ trail_edges trail.
Proof.
  induction trail as [|x l IH]; [done|]. simpl take_through.
  destruct (decide (x = d)) as [Hx|Hx]; [by intros ?%elem_of_nil|].
  destruct l as [|y l]; [done|]. revert IH. simpl take_through.
  destruct (decide (y = d)) as [Hy|Hy].
  - intros _. unfold trail_edges. simpl.
    intros [->|?%elem_of_nil]%elem_of_cons; [by left|done].
  - unfold trail_edges. simpl. intros IH [->|He]%elem_of_cons; [by left|].
    right. by apply IH.
Qed.

Lemma find_cycle_sound g S fuel : ∀ trail es,
  (∀ e, e ∈ trail_edges trail → next g S e.1 = Some e.2) →
  find_cycle g S fuel trail = Some es →
  es ≠ [] ∧ ∀ e, e ∈ es → next g S e.1 = Some e.2.
Proof.
  induction fuel as [|fuel IH]; intros trail es Hchain; simpl; [done|].
  destruct trail as [|u t]; [done|].
  destruct (next g S u) as [d|] eqn:Hd; [|done].
  destruct (decide (d ∈ u :: t)) as [Hin|Hnew].
  - intros [= <-]. split; [done|].
    intros e [->|He]%elem_of_cons; [done|].
    by apply Hchain, (trail_edges_take_through d).
  - apply IH. unfold trail_edges. simpl.
    intros e [->|He]%elem_of_cons; [done|]. by apply Hchain.
Qed.

Lemma trail_edges_elem trail e : e ∈ trail_edges trail → e.1 ∈ trail ∧ e.2 ∈ trail.
Proof.
  induction trail as [|x l IH]; [by intros ?%elem_of_nil|].
  destruct l as [|y l]; [by intros ?%elem_of_nil|].
  unfold trail_edges. simpl. intros [->|He]%elem_of_cons.
  - split; [right; by left|by left].
  - destruct (IH He). split; by right.
Qed.

Lemma take_through_subset d trail a : a ∈ take_through d trail → a ∈ trail.
Proof.
  induction trail as [|x l IH]; simpl; [done|].
  destruct (decide (x = d)) as [Hx|Hx].
  - intros ->%list_elem_of_singleton. by left.
  - intros [->|?]%elem_of_cons; [by left|right; by apply IH].
Qed.

(** Along a trail every type reaches the most recent one ... *)
Lemma trail_reaches_head g x l a :
  (∀ e, e ∈ trail_edges (x :: l) → contains_by_value g e.1 e.2) →
  a ∈ x :: l → rtc (contains_by_value g) a x.
Proof.
  revert x. induction l as [|y l IH]; intros x Hchain.
  - by intros ->%list_elem_of_singleton.
  - intros [->|Ha]%elem_of_cons; [done|].
    eapply rtc_r.
    + apply IH; [|done]. intros e He. apply Hchain. unfold trail_edges. simpl. by right.
    + apply (Hchain (y, x)). unfold trail_edges. simpl. by left.
Qed.

(** ... and is reached from the older ones. *)
Lemma take_through_reached g d trail a :
  (∀ e, e ∈ trail_edges trail → contains_by_value g e.1 e.2) →
  d ∈ trail → a ∈ take_through d trail → rtc (contains_by_value g) d a.
Proof.
  revert a. induction trail as [|x l IH]; intros a Hchain; [by intros ?%elem_of_nil|].
  simpl. destruct (decide (x = d)) as [->|Hx].
  - by intros _ ->%list_elem_of_singleton.
  - intros [->|Hd]%elem_of_cons; [done|].
    assert (Hchain' : ∀ e, e ∈ trail_edges l → contains_by_value g e.1 e.2).
    { destruct l as [|y l]; [by intros e ?%elem_of_nil|].
      intros e He. apply Hchain. unfold trail_edges. simpl. by right. }
    intros [->|Ha]%elem_of_cons; [|by apply IH].
    destruct l as [|y l]; [by apply elem_of_nil in Hd|].
    eapply rtc_r.
    + apply (IH y); [done..|]. simpl. destruct (decide (y = d)); by left.
    + apply (Hchain (y, x)). unfold trail_edges. simpl. by left.
Qed.

(** Every edge of the cycle found is a by-value edge that lies on a cycle. *)
Lemma find_cycle_on_cycle g S fuel : ∀ trail es,
  (∀ e, e ∈ trail_edges trail → contains_by_value g e.1 e.2) →
  find_cycle g S fuel trail = Some es →
  ∀ e, e ∈ es → contains_by_value g e.1 e.2 ∧ rtc (contains_by_value g) e.2 e.1.
Proof.
  induction fuel as [|fuel IH]; intros trail es Hchain; simpl; [done|].
  destruct trail as [|u t]; [done|].
  destruct (next g S u) as [d|] eqn:Hd; [|done].
  apply next_Some in Hd as [Hud _].
  destruct (decide (d ∈ u :: t)) as [Hin|Hnew].
  - intros [= <-] e [->|He]%elem_of_cons.
    + split; [done|]. simpl. by apply (trail_reaches_head g u t).
    + split; [by apply Hchain, (trail_edges_take_through d)|].
      apply trail_edges_elem in He as [H1 H2].
      etrans; [apply (trail_reaches_head g u t); [done|by eapply take_through_subset]|].
      eapply rtc_l; [done|]. by eapply take_through_reached.
  - apply IH. unfold trail_edges. simpl.
    intros e [->|He]%elem_of_cons; [done|]. by apply Hchain.
Qed.

Lemma find_cycle_total g S fuel : ∀ trail,
  trail ≠ [] → NoDup trail → (∀ a, a ∈ trail → a ∈ S) →
  (∀ u, u ∈ S → is_Some (next g S u)) →
  (length S < fuel + length trail)%nat →
  is_Some (find_cycle g S fuel trail).
Proof.
  induction fuel as [|fuel IH]; intros trail Hne Hnd Hsub Hnext Hlen.
  - pose proof (submseteq_length _ _ (NoDup_submseteq _ _ Hnd Hsub)). simpl in Hlen. lia.
  - destruct trail as [|u t]; [done|]. simpl.
    destruct (Hnext u) as [d Hd]; [apply Hsub; by left|]. rewrite Hd.
    destruct (decide (d ∈ u :: t)) as [Hin|Hnew]; [by eexists|].
    apply IH; [done|by constructor| |done|simpl in *; lia].
    intros a [->|Ha]%elem_of_cons; [|by apply Hsub].
    by apply next_Some in Hd as [_ ?].
Qed.

(** *** Choice of the edge *)

Lemma select_edge_elem code es : ∀ best, select_edge code best es ∈ best :: es.
Proof.
  induction es as [|e es IH]; intros best; simpl; [by left|].
  specialize (IH (if pair_ltb (smallest_endpoint code e) (smallest_endpoint code best)
                  then e else best)).
  apply elem_of_cons in IH as [->|IH].
  - destruct (pair_ltb _ _); [right; by left|by left].
  - by do 2 right.
Qed.

(** *** One round *)

Lemma emit_nodes g o S :
  emit g (length (nodes g)) (nodes g) [] = (o, S) →
  o ++ S ≡ₚ nodes g ∧ in_dependency_order g o ∧ ∀ u, u ∈ S → ready g o u = false.
Proof. apply emit_spec; [done| |done]. by intros i u v ?. Qed.

Lemma attempt_cases code g :
  match attempt code g with
  | Ordered o => topological_order g o
  | CycleEdge e => contains_by_value g e.1 e.2 ∧ rtc (contains_by_value g) e.2 e.1
  end.
Proof.
  unfold attempt. destruct (emit g (length (nodes g)) (nodes g) []) as [o S] eqn:He.
  apply emit_nodes in He as (Hperm & Ho & Hstuck).
  destruct S as [|u0 S'].
  { apply emitted_all_topological; [|done]. by rewrite app_nil_r in Hperm. }
  set (S := u0 :: S') in *.
  assert (Hu0 : u0 ∈ S) by left.
  destruct (find_cycle_total g S (length S) [u0]) as [es Hes].
  { done. }
  { apply NoDup_singleton. }
  { by intros a ->%list_elem_of_singleton. }
  { intros u Hu. by eapply stuck_next. }
  { simpl. lia. }
  rewrite Hes.
  destruct (find_cycle_sound g S _ _ _ (λ e (H : e ∈ trail_edges [u0]),
              False_ind _ (proj1 (elem_of_nil e) H)) Hes) as [Hne _].
  destruct es as [|e es]; [done|].
  eapply find_cycle_on_cycle; [|done|apply select_edge_elem].
  by intros e' ?%elem_of_nil.
Qed.

(** *** Rewriting a member *)

Local Abbreviation value_types ps :=
  (p_type <$> filter (λ p, by_value p = true) ps).

Lemma by_value_set_reference p : by_value (set_edge ByReference p) = false.
Proof. done. Qed.

Lemma hold_by_reference_subset t (ps : list Particle) v :
  v ∈ value_types (hold_by_reference t ps) → v ∈ value_types ps.
Proof.
  induction ps as [|p ps IH]; simpl; [done|].
  destruct (by_value p) eqn:Hp; simpl.
  - destruct (bool_decide (p_type p = t)).
    + rewrite filter_cons_False by (by rewrite by_value_set_reference).
      rewrite filter_cons_True by done. rewrite fmap_cons. by right.
    + rewrite !filter_cons_True by done. rewrite !fmap_cons.
      intros [->|?]%elem_of_cons; [by left|right; by apply IH].
  - rewrite !filter_cons_False by (by rewrite Hp). done.
Qed.

Lemma hold_by_reference_length t (ps : list Particle) :
  t ∈ value_types ps →
  (length (value_types (hold_by_reference t ps)) + 1 = length (value_types ps))%nat.
Proof.
  induction ps as [|p ps IH]; simpl; [by intros ?%elem_of_nil|].
  destruct (by_value p) eqn:Hp; simpl.
  - destruct (bool_decide_reflect (p_type p = t)) as [Ht|Ht].
    + intros _. rewrite filter_cons_False by (by rewrite by_value_set_reference).
      rewrite filter_cons_True by done. rewrite !length_fmap. simpl. lia.
    + rewrite !filter_cons_True by done. rewrite !fmap_cons.
      intros [?|Hin]%elem_of_cons; [done|]. specialize (IH Hin).
      rewrite ?length_cons, !length_fmap in *. lia.
  - rewrite !filter_cons_False by (by rewrite Hp). done.
Qed.

(** A member edge stays a member edge, by value or by reference. *)
Lemma hold_by_reference_members t (ps : list Particle) p :
  p ∈ ps → p ∈ hold_by_reference t ps ∨
           (by_value p = true ∧ set_edge ByReference p ∈ hold_by_reference t ps).
Proof.
  induction ps as [|q ps IH]; simpl; [by intros ?%elem_of_nil|].
  intros [->|Hin]%elem_of_cons.
  - destruct (by_value q) eqn:Hq; simpl; [|left; by left].
    destruct (bool_decide (p_type q = t)); [right; split; [done|by left]|left; by left].
  - destruct (by_value q && bool_decide (p_type q = t)).
    + left. by right.
    + destruct (IH Hin) as [?|[? ?]]; [left; by right|right; split; [done|by right]].
Qed.

Lemma hold_by_reference_other t (ps : list Particle) p :
  p ∈ ps → p_type p ≠ t → p ∈ hold_by_reference t ps.
Proof.
  induction ps as [|q ps IH]; simpl; [by intros ?%elem_of_nil|].
  intros [->|Hin]%elem_of_cons Hne.
  - rewrite bool_decide_eq_false_2 by done. rewrite andb_false_r. by left.
  - destruct (by_value q && bool_decide (p_type q = t)); right; [done|by apply IH].
Qed.

Lemma elem_value_types (ps : list Particle) v :
  v ∈ value_types ps ↔ ∃ p, p ∈ ps ∧ p_type p = v ∧ by_value p = true.
Proof.
  rewrite list_elem_of_fmap. split.
  - intros (p & -> & [? ?]%list_elem_of_filter). by exists p.
  - intros (p & ? & <- & ?). exists p. split; [done|]. by apply list_elem_of_filter.
Qed.

Lemma lookup_rewrite_member g e u :
  rewrite_member g e !! u =
    if decide (e.1 = u)
    then (λ n, set_members (hold_by_reference e.2 (t_members n)) n) <$> g !! u
    else g !! u.
Proof.
  unfold rewrite_member. destruct (decide (e.1 = u)) as [<-|Hne].
  - by rewrite lookup_alter_eq.
  - by rewrite lookup_alter_ne.
Qed.

Lemma relaxes_refl g : relaxes g g.
Proof. repeat split; auto. Qed.

Lemma relaxes_trans g1 g2 g3 : relaxes g1 g2 → relaxes g2 g3 → relaxes g1 g3.
Proof.
  intros (Hd1 & Hs1 & He1 & Hr1) (Hd2 & Hs2 & He2 & Hr2). repeat split.
  - intros ?. by apply Hd1, Hd2.
  - intros ?. by apply Hd2, Hd1.
  - intros u v ?. by apply Hs1, Hs2.
  - intros u v [H|[H Hc]]%He1.
    + destruct (He2 _ _ H) as [?|[? Hc]]; [by left|]. right. split; [done|].
      eapply rtc_subrel; [|done]. intros ???. by apply Hs1.
    + right. split; [by apply Hr2|done].
  - intros u v ?. by apply Hr2, Hr1.
Qed.

Lemma rewrite_member_relaxes g e :
  rtc (contains_by_value g) e.2 e.1 → relaxes g (rewrite_member g e).
Proof.
  intros Hcycle. repeat split.
  - rewrite lookup_rewrite_member. destruct (decide (e.1 = u)); [|done].
    by rewrite fmap_is_Some.
  - rewrite lookup_rewrite_member. destruct (decide (e.1 = u)); [|done].
    by rewrite fmap_is_Some.
  - intros u v. unfold contains_by_value, deps. rewrite lookup_rewrite_member.
    destruct (decide (e.1 = u)); [|done].
    destruct (g !! u) as [n|]; simpl; [|done]. apply hold_by_reference_subset.
  - intros u v. unfold contains_by_value, holds_by_reference, deps.
    rewrite lookup_rewrite_member.
    destruct (decide (e.1 = u)) as [<-|Hu]; [|by left].
    destruct (g !! e.1) as [n|] eqn:Hn; simpl; [|by left].
    unfold value_members. rewrite !elem_value_types. intros (p & Hp & <- & Hv).
    destruct (decide (p_type p = e.2)) as [Ht|Ht].
    + destruct (hold_by_reference_members e.2 _ _ Hp) as [Hin|[_ Hin]].
      * left. by exists p.
      * right. split; [|by rewrite Ht].
        eexists _, (set_edge ByReference p). split; [done|]. by split.
    + left. exists p. split; [by apply hold_by_reference_other|done].
  - intros u v (n & p & Hn & Hp & Hv & Hr). unfold holds_by_reference.
    rewrite lookup_rewrite_member.
    destruct (decide (e.1 = u)); [|by exists n, p].
    rewrite Hn. simpl. eexists _, p. split; [done|]. split; [|done]. simpl.
    destruct (hold_by_reference_members e.2 _ _ Hp) as [Hin|[Hbv _]]; [done|].
    unfold by_value in Hbv. by rewrite Hr in Hbv.
Qed.

Lemma rewrite_member_value_edges g e :
  contains_by_value g e.1 e.2 →
  (value_edges (rewrite_member g e) + 1 = value_edges g)%nat.
Proof.
  unfold contains_by_value, deps. destruct (g !! e.1) as [n|] eqn:Hn;
    [|by intros ?%elem_of_nil].
  intros Hin. unfold value_edges, rewrite_member.
  rewrite <- (insert_delete_id g e.1 n Hn) at 1 2.
  rewrite alter_insert_eq.
  rewrite !map_to_list_insert by apply lookup_delete_eq. simpl.
  unfold value_members in *. simpl.
  pose proof (hold_by_reference_length e.2 (t_members n) Hin) as Hlen.
  rewrite !length_fmap in *. lia.
Qed.

(** *** The rounds *)

Lemma order_loop_spec code fuel : ∀ g,
  (value_edges g < fuel)%nat →
  ∃ g' o, order_loop code fuel g = Some (g', o) ∧
          topological_order g' o ∧ relaxes g g'.
Proof.
  induction fuel as [|fuel IH]; intros g Hlt; [lia|]. simpl.
  pose proof (attempt_cases code g) as Hcases.
  destruct (attempt code g) as [o|e].
  - exists g, o. split; [done|]. split; [done|]. apply relaxes_refl.
  - destruct Hcases as [He Hcycle].
    pose proof (rewrite_member_value_edges g e He).
    destruct (IH (rewrite_member g e)) as (g' & o & Hloop & Ho & Hrel); [lia|].
    exists g', o. split; [done|]. split; [done|].
    eapply relaxes_trans; [by apply rewrite_member_relaxes|done].
Qed.

(** *** Cycles *)

Lemma walk_tc g u es w : walk g u es w → tc (contains_by_value g) u w.
Proof.
  induction 1 as [u v Huv|u v w es Huv _ IH]; [by apply tc_once|by eapply tc_l].
Qed.

Lemma walk_transfer g g' u es w :
  walk g u es w → Forall (λ e, contains_by_value g' e.1 e.2) es → walk g' u es w.
Proof.
  induction 1 as [u v Huv|u v w es Huv _ IH]; intros Hall.
  - apply Forall_cons in Hall as [? _]. by constructor.
  - apply Forall_cons in Hall as [? ?]. constructor; [done|by apply IH].
Qed.

Lemma walk_edges g u es w e : walk g u es w → e ∈ es → contains_by_value g e.1 e.2.
Proof.
  induction 1 as [u v Huv|u v w es Huv _ IH].
  - by intros ->%list_elem_of_singleton.
  - intros [->|?]%elem_of_cons; [done|by apply IH].
Qed.

Lemma cycle_has_rewritten_edge g g' u es :
  relaxes g g' → acyclic g' → walk g u es u →
  ∃ e, e ∈ es ∧ ¬ contains_by_value g' e.1 e.2 ∧ holds_by_reference g' e.1 e.2.
Proof.
  intros (_ & _ & Hedge & _) Hacyclic Hwalk.
  destruct (Forall_Exists_dec (λ e, contains_by_value g' e.1 e.2)
              (λ e, ¬ contains_by_value g' e.1 e.2)
              (λ e, decide (e.2 ∈ deps g' e.1)) es) as [Hall|Hex].
  - destruct (Hacyclic u). eapply walk_tc, walk_transfer; done.
  - apply Exists_exists in Hex as (e & He & Hne). exists e.
    split; [done|]. split; [done|].
    destruct (Hedge e.1 e.2) as [?|[? _]]; [by eapply walk_edges|done..].
Qed.

End Orderer.

(** C3.  On a graph without by-value cycle the Orderer rewrites nothing and
    returns an order of all retained TypeNodes, each once, in which every
    type comes after the TypeNodes it contains by value. *)
Theorem orderer_topological_order
    (code : string → string) (g : gmap QualifiedName TypeNode) :
  DependencyOrderer.acyclic g →
  ∃ order, DependencyOrderer.order code g = Some (g, order) ∧
           DependencyOrderer.topological_order g order.
Proof.
  intros Hacyclic. unfold DependencyOrderer.order. simpl.
  pose proof (attempt_cases code g) as Hcases.
  destruct (DependencyOrderer.attempt code g) as [order|e]; [by exists order|].
  destruct Hcases as [He Hcycle]. destruct (Hacyclic e.1).
  eapply tc_rtc_r; [by apply tc_once|done].
Qed.

Lemma orderer_topological_order_witness :
  ∃ order,
    DependencyOrderer.order id DependencyOrderer.order_graph
      = Some (DependencyOrderer.order_graph, order) ∧
    DependencyOrderer.topological_order DependencyOrderer.order_graph order.
Proof.
  apply (orderer_topological_order id DependencyOrderer.order_graph).
  pose proof (attempt_cases id DependencyOrderer.order_graph) as H.
  replace (DependencyOrderer.attempt id DependencyOrderer.order_graph)
    with (DependencyOrderer.Ordered
            [("urn:sample", "Product"); ("urn:sample", "Line"); ("urn:sample", "Order")])
    in H by (vm_compute; reflexivity).
  by eapply topological_order_acyclic.
Defined.

(** C4.  On every graph the Orderer ends within its bound of rounds.  The
    graph it returns has the same types and no by-value edge that the input
    lacks, is acyclic on by-value edges, and comes with a topological order.
    On every by-value cycle of the input, a type containing itself included,
    at least one edge is no longer by value but by reference; and only edges
    that lay on a by-value cycle are turned into references. *)
Theorem orderer_breaks_cycles
    (code : string → string) (g : gmap QualifiedName TypeNode) :
  ∃ g' order,
    DependencyOrderer.order code g = Some (g', order) ∧
    DependencyOrderer.acyclic g' ∧
    DependencyOrderer.topological_order g' order ∧
    DependencyOrderer.relaxes g g' ∧
    (∀ u cycle, DependencyOrderer.walk g u cycle u →
       ∃ e, e ∈ cycle ∧
            ¬ DependencyOrderer.contains_by_value g' e.1 e.2 ∧
            DependencyOrderer.holds_by_reference g' e.1 e.2) ∧
    (∀ u v, DependencyOrderer.contains_by_value g u v →
            ¬ DependencyOrderer.contains_by_value g' u v →
            tc (DependencyOrderer.contains_by_value g) u u).
Proof.
  destruct (order_loop_spec code (S (DependencyOrderer.value_edges g)) g)
    as (g' & o & Hloop & Ho & Hrel); [lia|].
  exists g', o. split; [done|].
  pose proof (topological_order_acyclic _ _ Ho) as Hacyclic.
  repeat (split; [done|]). split.
  - intros u cycle Hwalk. by eapply cycle_has_rewritten_edge.
  - intros u v Huv Hgone. destruct Hrel as (_ & _ & Hedge & _).
    destruct (Hedge u v Huv) as [?|[_ Hback]]; [done|].
    eapply tc_rtc_r; [by apply tc_once|done].
Qed.

Lemma orderer_breaks_cycles_witness :
  ∃ g' order,
    DependencyOrderer.order id DependencyOrderer.tree_graph = Some (g', order) ∧
    DependencyOrderer.holds_by_reference g' ("urn:sample", "Node") ("urn:sample", "Node").
Proof.
  destruct (orderer_breaks_cycles id DependencyOrderer.tree_graph)
    as (g' & order & Horder & _ & _ & _ & Hcycles & _).
  exists g', order. split; [exact Horder|].
  destruct (Hcycles ("urn:sample", "Node")
              [(("urn:sample", "Node"), ("urn:sample", "Node"))]) as (e & He & _ & Href).
  - apply DependencyOrderer.walk_edge. vm_compute. left.
  - apply list_elem_of_singleton in He. subst e. exact Href.
Defined.

(** * More about the front end *)

(** X1.  An option that takes a value and stands last on the command line
    makes [main] print the usage text and return 1. *)
Theorem missing_option_value_is_usage_error
    (env : Env) (pre : list string) (l1 : Locals) (opt : string) :
  parse_args env initial_locals pre = Finished l1 →
  opt ∈ valued_options →
  main env (pre ++ [opt]) = Exit 1 [Usage].
Proof.
  intros Hpre Hopt. unfold main. rewrite (parse_args_app env _ _ _ _ Hpre).
  unfold valued_options in Hopt.
  repeat (apply elem_of_cons in Hopt as [->|Hopt]; [reflexivity|]).
  by apply elem_of_nil in Hopt.
Qed.

Lemma missing_option_value_is_usage_error_witness :
  main no_files ["-server"; "service.wsdl"; "-o"] = Exit 1 [Usage].
Proof.
  apply (missing_option_value_is_usage_error no_files ["-server"; "service.wsdl"]
           (set_fileName (Some "service.wsdl") (set_server true initial_locals)) "-o").
  - reflexivity.
  - unfold valued_options. do 2 right. left.
Defined.

(** X2.  [-h]/[-help] and [-v]/[-version] in option position end the run
    with status 0, whatever follows them. *)
Theorem help_and_version_end_the_run
    (env : Env) (pre : list string) (l1 : Locals) (rest : list string) :
  parse_args env initial_locals pre = Finished l1 →
  main env (pre ++ "-h" :: rest) = Exit 0 [Usage] ∧
  main env (pre ++ "-help" :: rest) = Exit 0 [Usage] ∧
  main env (pre ++ "-v" :: rest) = Exit 0 [VersionLine] ∧
  main env (pre ++ "-version" :: rest) = Exit 0 [VersionLine].
Proof.
  intros Hpre. unfold main. by rewrite !(parse_args_app env _ _ _ _ Hpre).
Qed.

Lemma help_and_version_end_the_run_witness :
  main no_files ["service.wsdl"; "-v"; "-namespaceMapping"; "@missing"; "-o"]
    = Exit 0 [VersionLine].
Proof.
  apply (help_and_version_end_the_run no_files ["service.wsdl"]
           (set_fileName (Some "service.wsdl") initial_locals)
           ["-namespaceMapping"; "@missing"; "-o"]).
  reflexivity.
Defined.

(** X3.  A mapping file that cannot be opened ends the run with the error
    message, the usage text and status 1. *)
Theorem unreadable_mapping_file_is_fatal
    (env : Env) (pre : list string) (l1 : Locals) (file : string) (rest : list string) :
  parse_args env initial_locals pre = Finished l1 →
  open_read env file = None →
  main env (pre ++ "-namespaceMapping" :: String "@" file :: rest)
    = Exit 1 [ErrorReading file; Usage].
Proof.
  intros Hpre Hfile. unfold main. rewrite (parse_args_app env _ _ _ _ Hpre).
  simpl. unfold loop_body. simpl. by rewrite Hfile.
Qed.

Lemma unreadable_mapping_file_is_fatal_witness :
  main no_files ["-namespaceMapping"; "@codes.map"; "service.wsdl"]
    = Exit 1 [ErrorReading "codes.map"; Usage].
Proof.
  apply (unreadable_mapping_file_is_fatal no_files [] initial_locals "codes.map"
           ["service.wsdl"]); reflexivity.
Defined.

(** X4.  The WSDL locator that reaches the settings is the first argument
    in option position that is no option name; no later argument replaces
    it. *)
Theorem wsdl_is_first_positional
    (env : Env) (pre : list string) (l1 : Locals) (wsdl : string)
    (rest : list string) (s : Settings.t) :
  parse_args env initial_locals pre = Finished l1 →
  fileName l1 = None →
  wsdl ∉ option_names →
  main env (pre ++ wsdl :: rest) = Exec s →
  Settings.wsdlFile s = wsdl.
Proof.
  intros Hpre Hnone Hwsdl. unfold main. rewrite (parse_args_app env _ _ _ _ Hpre).
  simpl parse_args. rewrite loop_body_positional by done. rewrite Hnone.
  pose proof (fileName_kept env rest (set_fileName (Some wsdl) l1) wsdl eq_refl) as Hk.
  destruct (parse_args env (set_fileName (Some wsdl) l1) rest) as [l|]; [|done].
  simpl in Hk. rewrite Hk. destruct (both_combined l); [done|].
  destruct (load_certificate env l); [done|]. intros [= <-].
  unfold configure. by destruct (both l), (impl l).
Qed.

Lemma wsdl_is_first_positional_witness :
  Settings.wsdlFile
    (configure no_files
       (set_outputFile "soap.h"
          (set_outfileGiven true
             (set_fileName (Some "service.wsdl") (set_server true initial_locals))))
       "service.wsdl")
  = "service.wsdl".
Proof.
  apply (wsdl_is_first_positional no_files ["-server"] (set_server true initial_locals)
           "service.wsdl" ["-o"; "soap.h"]).
  - reflexivity.
  - reflexivity.
  - unfold option_names. literal_not_in.
  - reflexivity.
Defined.

(** X5.  Every argument that becomes the WSDL locator is an argument of the
    command line that is no option name. *)
Theorem wsdl_is_an_argument (env : Env) (args : list string) (s : Settings.t) :
  main env args = Exec s →
  Settings.wsdlFile s ∈ args ∧ Settings.wsdlFile s ∉ option_names.
Proof.
  unfold main. destruct (parse_args env initial_locals args) as [l|] eqn:Hp; [|done].
  destruct (fileName l) as [wsdl|] eqn:Hw; [|done].
  destruct (both_combined l); [done|].
  destruct (load_certificate env l); [done|]. intros [= <-].
  pose proof (fileName_origin env args initial_locals wsdl) as Ho.
  rewrite Hp in Ho. destruct (Ho Hw) as [?|(_ & ? & ?)]; [done|].
  unfold configure. by destruct (both l), (impl l).
Qed.

Lemma wsdl_is_an_argument_witness :
  "service.wsdl" ∈ ["-server"; "service.wsdl"] ∧ "service.wsdl" ∉ option_names.
Proof.
  apply (wsdl_is_an_argument no_files ["-server"; "service.wsdl"]
           (configure no_files
              (set_fileName (Some "service.wsdl") (set_server true initial_locals))
              "service.wsdl")).
  reflexivity.
Defined.

Lemma flags_kept_trans l1 l2 l3 : flags_kept l1 l2 → flags_kept l2 l3 → flags_kept l1 l3.
Proof.
  unfold flags_kept. intros (A1&A2&A3&A4&A5&A6&A7&A8&A9&A10) (B1&B2&B3&B4&B5&B6&B7&B8&B9&B10).
  split_and!; auto.
Qed.

(** X6.  No argument clears a flag: whatever is set when the loop reaches an
    argument is still set when the loop ends. *)
Theorem flags_are_never_cleared (env : Env) (args : list string) (l : Locals) :
  flags_kept l (locals_at_end (parse_args env l args)).
Proof.
  revert l. induction args as [|a|a b rest IH1 IH2] using list_ind2; intros l.
  - by unfold flags_kept.
  - simpl. peel; by unfold flags_kept.
  - simpl parse_args. peel.
    all: try by unfold flags_kept.
    all: (eapply flags_kept_trans; [|first [apply IH2|apply IH1]]); by unfold flags_kept.
Qed.

Lemma importPathList_grows env args : ∀ l,
  ∃ added, importPathList (locals_at_end (parse_args env l args))
             = importPathList l ++ added ∧
           ∀ p, p ∈ added → p ∈ args.
Proof.
  induction args as [|a|a b rest IH1 IH2] using list_ind2; intros l.
  - exists []. split; [by rewrite app_nil_r|]. by intros p ?%elem_of_nil.
  - simpl. peel; exists []; (split; [by rewrite app_nil_r|]); by intros p ?%elem_of_nil.
  - simpl parse_args. peel.
    all: try (exists []; (split; [by rewrite app_nil_r|]); by intros p ?%elem_of_nil).
    all: lazymatch goal with
         | |- context [parse_args _ ?l' (_ :: _)] =>
             destruct (IH2 l') as (added & Heq & Hin);
             exists added; split; [exact Heq|]; intros p Hp; right; by apply Hin
         | |- context [parse_args _ (set_importPathList _ _) _] =>
             destruct (IH1 (set_importPathList (importPathList l ++ [b]) l))
               as (added & Heq & Hin);
             exists (b :: added); split;
             [rewrite Heq; simpl; by rewrite <- app_assoc
             |intros p [->|Hp]%elem_of_cons; [right; by left|do 2 right; by apply Hin]]
         | |- context [parse_args _ ?l' _] =>
             destruct (IH1 l') as (added & Heq & Hin);
             exists added; split; [exact Heq|]; intros p Hp; do 2 right; by apply Hin
         end.
Qed.

(** X7.  Import paths are kept in the order of the command line: the path
    of an [-import-path] option comes after all paths given before it and
    before all paths given after it, and nothing else gets into the list. *)
Theorem import_paths_in_order
    (env : Env) (pre : list string) (l1 : Locals) (path : string)
    (rest : list string) (s : Settings.t) :
  parse_args env initial_locals pre = Finished l1 →
  main env (pre ++ "-import-path" :: path :: rest) = Exec s →
  ∃ later,
    Settings.importPathList s = importPathList l1 ++ path :: later ∧
    (∀ p, p ∈ importPathList l1 → p ∈ pre) ∧
    (∀ p, p ∈ later → p ∈ rest).
Proof.
  intros Hpre. unfold main. rewrite (parse_args_app env _ _ _ _ Hpre).
  change (parse_args env l1 ("-import-path" :: path :: rest))
    with (parse_args env (set_importPathList (importPathList l1 ++ [path]) l1) rest).
  destruct (importPathList_grows env rest
              (set_importPathList (importPathList l1 ++ [path]) l1))
    as (later & Heq & Hlater).
  destruct (importPathList_grows env pre initial_locals) as (earlier & Hearlier & Hin).
  rewrite Hpre in Hearlier. simpl in Hearlier.
  destruct (parse_args env (set_importPathList (importPathList l1 ++ [path]) l1) rest)
    as [l|]; [|done].
  destruct (fileName l); [|done]. destruct (both_combined l); [done|].
  destruct (load_certificate env l); [done|]. intros [= <-].
  exists later. split; [|split; [|done]].
  - simpl in Heq. rewrite <- app_assoc in Heq. simpl in Heq.
    unfold configure. by destruct (both l), (impl l).
  - intros p Hp. apply Hin. by rewrite <- Hearlier.
Qed.

Lemma import_paths_in_order_witness :
  ∃ later,
    Settings.importPathList
      (configure no_files
         (set_fileName (Some "service.wsdl")
            (set_importPathList ["schemas"; "cache"] initial_locals)) "service.wsdl")
    = ["schemas"] ++ "cache" :: later.
Proof.
  destruct (import_paths_in_order no_files ["-import-path"; "schemas"]
              (set_importPathList ["schemas"] initial_locals) "cache" ["service.wsdl"]
              (configure no_files
                 (set_fileName (Some "service.wsdl")
                    (set_importPathList ["schemas"; "cache"] initial_locals))
                 "service.wsdl") eq_refl eq_refl) as (later & Heq & _).
  exists later. exact Heq.
Defined.

Lemma add_mapping_line_keeps m line uri :
  is_Some (m !! uri) → is_Some (add_mapping_line m line !! uri).
Proof.
  intros Hm. unfold add_mapping_line.
  destruct (QString.startsWith "#" _); [done|].
  destruct (negb _ && negb _); [|done].
  rewrite lookup_insert_is_Some.
  destruct (decide (QString.section "=" 0 (-2) (QByteArray.trimmed line) = uri)); auto.
Qed.

Lemma read_mapping_file_keeps content m uri :
  is_Some (m !! uri) → is_Some (read_mapping_file content m !! uri).
Proof.
  unfold read_mapping_file. revert m.
  induction (QIODevice.lines content) as [|line lines IH]; intros m Hm; [done|].
  simpl. by apply IH, add_mapping_line_keeps.
Qed.

Lemma add_literal_mapping_keeps m mapping uri :
  is_Some (m !! uri) → is_Some (add_literal_mapping m mapping !! uri).
Proof.
  intros Hm. unfold add_literal_mapping. rewrite lookup_insert_is_Some.
  destruct (decide (QString.section "=" 0 (-2) mapping = uri)); auto.
Qed.

(** X8.  No argument removes a namespace from the mapping: a URI that has a
    code when the loop reaches an argument has one when the loop ends (a
    later mapping can only replace the code). *)
Theorem mapped_namespaces_stay_mapped
    (env : Env) (args : list string) (l : Locals) (uri : string) :
  is_Some (nsmapping l !! uri) →
  is_Some (nsmapping (locals_at_end (parse_args env l args)) !! uri).
Proof.
  revert l. induction args as [|a|a b rest IH1 IH2] using list_ind2; intros l Hl.
  - done.
  - simpl. by peel.
  - simpl parse_args. peel; try done.
    all: first [apply IH2 | apply IH1]; simpl; try done.
    + by apply read_mapping_file_keeps.
    + by apply add_literal_mapping_keeps.
Qed.

Lemma mapped_namespaces_stay_mapped_witness :
  is_Some (nsmapping
             (locals_at_end
                (parse_args no_files
                   (set_nsmapping {["urn:orders" := "ord"]} initial_locals)
                   ["-namespaceMapping"; "urn:orders=o"; "-namespaceMapping"; "=x"]))
           !! "urn:orders").
Proof.
  apply (mapped_namespaces_stay_mapped no_files
           ["-namespaceMapping"; "urn:orders=o"; "-namespaceMapping"; "=x"]
           (set_nsmapping {["urn:orders" := "ord"]} initial_locals) "urn:orders").
  by eexists.
Defined.

Lemma eqb_or_false (a x y : string) (args : list string) :
  x ∉ a :: args → y ∉ a :: args → String.eqb a x || String.eqb a y = false.
Proof.
  intros Hx Hy. apply orb_false_iff. split; apply String.eqb_neq; intros ->.
  - apply Hx. by left.
  - apply Hy. by left.
Qed.

Lemma eqb_false_tail (a x : string) (args : list string) :
  x ∉ a :: args → String.eqb a x = false ∧ x ∉ args.
Proof.
  intros Hx. split.
  - apply String.eqb_neq. intros ->. apply Hx. by left.
  - intros ?. apply Hx. by right.
Qed.

(** The service name changes only at [-s]/[-service]. *)
Lemma serviceName_kept env args : ∀ l,
  "-s" ∉ args → "-service" ∉ args →
  serviceName (locals_at_end (parse_args env l args)) = serviceName l.
Proof.
  induction args as [|a|a b rest IH1 IH2] using list_ind2; intros l Hs Hservice.
  - done.
  - simpl. by peel.
  - apply eqb_false_tail in Hs as [Hs Hs'], Hservice as [Hservice Hservice'].
    pose proof (proj2 (eqb_false_tail _ _ _ Hs')) as Hs''.
    pose proof (proj2 (eqb_false_tail _ _ _ Hservice')) as Hservice''.
    simpl parse_args. peel; try done.
    all: try (rewrite Hs in *; simpl in *; congruence).
    all: first [by rewrite IH2 | by rewrite IH1].
Qed.

Lemma exportMacro_kept env args : ∀ l,
  "-exportMacro" ∉ args →
  exportMacro (locals_at_end (parse_args env l args)) = exportMacro l.
Proof.
  induction args as [|a|a b rest IH1 IH2] using list_ind2; intros l Hn.
  - done.
  - simpl. by peel.
  - apply eqb_false_tail in Hn as [Hn Hn'].
    pose proof (proj2 (eqb_false_tail _ _ _ Hn')) as Hn''.
    simpl parse_args. peel; try done.
    all: first [by rewrite IH2 | by rewrite IH1].
Qed.

Lemma nameSpace_kept env args : ∀ l,
  "-namespace" ∉ args →
  nameSpace (locals_at_end (parse_args env l args)) = nameSpace l.
Proof.
  induction args as [|a|a b rest IH1 IH2] using list_ind2; intros l Hn.
  - done.
  - simpl. by peel.
  - apply eqb_false_tail in Hn as [Hn Hn'].
    pose proof (proj2 (eqb_false_tail _ _ _ Hn')) as Hn''.
    simpl parse_args. peel; try done.
    all: first [by rewrite IH2 | by rewrite IH1].
Qed.

Lemma pkcs12File_kept env args : ∀ l,
  "-pkcs12file" ∉ args →
  pkcs12File (locals_at_end (parse_args env l args)) = pkcs12File l.
Proof.
  induction args as [|a|a b rest IH1 IH2] using list_ind2; intros l Hn.
  - done.
  - simpl. by peel.
  - apply eqb_false_tail in Hn as [Hn Hn'].
    pose proof (proj2 (eqb_false_tail _ _ _ Hn')) as Hn''.
    simpl parse_args. peel; try done.
    all: first [by rewrite IH2 | by rewrite IH1].
Qed.

(** What [main] hands to the settings. *)
Lemma main_exec_settings env args s :
  main env args = Exec s →
  ∃ l wsdl, parse_args env initial_locals args = Finished l ∧
            fileName l = Some wsdl ∧ s = configure env l wsdl.
Proof.
  unfold main. destruct (parse_args env initial_locals args) as [l|]; [|done].
  destruct (fileName l) as [wsdl|] eqn:Hw; [|done]. destruct (both_combined l); [done|].
  destruct (load_certificate env l); [done|]. intros [= <-]. by exists l, wsdl.
Qed.

(** X9.  When [-s]/[-service], [-exportMacro] or [-namespace] is given more
    than once, the last value is the one used: the value of such an option
    reaches the settings if that option's name does not occur after it,
    whatever other options follow. *)
Theorem last_value_wins
    (env : Env) (pre : list string) (l1 : Locals) (value : string)
    (rest : list string) :
  parse_args env initial_locals pre = Finished l1 →
  ("-s" ∉ rest → "-service" ∉ rest →
   ∀ s, main env (pre ++ "-s" :: value :: rest) = Exec s →
        Settings.wantedService s = value) ∧
  ("-s" ∉ rest → "-service" ∉ rest →
   ∀ s, main env (pre ++ "-service" :: value :: rest) = Exec s →
        Settings.wantedService s = value) ∧
  ("-exportMacro" ∉ rest →
   ∀ s, main env (pre ++ "-exportMacro" :: value :: rest) = Exec s →
        Settings.exportDeclaration s = value) ∧
  ("-namespace" ∉ rest →
   ∀ s, main env (pre ++ "-namespace" :: value :: rest) = Exec s →
        Settings.nameSpace s = value).
Proof.
  intros Hpre.
  split_and!.
  - intros Hs Hservice s (l & wsdl & Hl & _ & ->)%main_exec_settings.
    rewrite (parse_args_app env _ _ _ _ Hpre) in Hl.
    pose proof (serviceName_kept env rest (set_serviceName value l1) Hs Hservice) as Hk.
    change (parse_args env l1 ("-s" :: value :: rest))
      with (parse_args env (set_serviceName value l1) rest) in Hl.
    rewrite Hl in Hk. unfold configure. by destruct (both l), (impl l).
  - intros Hs Hservice s (l & wsdl & Hl & _ & ->)%main_exec_settings.
    rewrite (parse_args_app env _ _ _ _ Hpre) in Hl.
    pose proof (serviceName_kept env rest (set_serviceName value l1) Hs Hservice) as Hk.
    change (parse_args env l1 ("-service" :: value :: rest))
      with (parse_args env (set_serviceName value l1) rest) in Hl.
    rewrite Hl in Hk. unfold configure. by destruct (both l), (impl l).
  - intros Hmacro s (l & wsdl & Hl & _ & ->)%main_exec_settings.
    rewrite (parse_args_app env _ _ _ _ Hpre) in Hl.
    pose proof (exportMacro_kept env rest (set_exportMacro value l1) Hmacro) as Hk.
    change (parse_args env l1 ("-exportMacro" :: value :: rest))
      with (parse_args env (set_exportMacro value l1) rest) in Hl.
    rewrite Hl in Hk. unfold configure. by destruct (both l), (impl l).
  - intros Hns s (l & wsdl & Hl & _ & ->)%main_exec_settings.
    rewrite (parse_args_app env _ _ _ _ Hpre) in Hl.
    pose proof (nameSpace_kept env rest (set_nameSpace value l1) Hns) as Hk.
    change (parse_args env l1 ("-namespace" :: value :: rest))
      with (parse_args env (set_nameSpace value l1) rest) in Hl.
    rewrite Hl in Hk. unfold configure. by destruct (both l), (impl l).
Qed.

Lemma last_value_wins_witness :
  Settings.wantedService
    (configure no_files
       (set_fileName (Some "service.wsdl")
          (set_nameSpace "ns" (set_serviceName "Billing" initial_locals)))
       "service.wsdl")
  = "Billing".
Proof.
  destruct (last_value_wins no_files ["-s"; "Orders"]
              (set_serviceName "Orders" initial_locals) "Billing"
              ["-namespace"; "ns"; "service.wsdl"] eq_refl) as (H & _).
  apply H; [literal_not_in..|reflexivity].
Defined.

(** A turn of the loop reads its surroundings only through [open_read]. *)
Lemma loop_body_open_read env env' continue continue' l opt rest :
  open_read env' = open_read env →
  (∀ l', continue' l' rest = continue l' rest) →
  (∀ l', continue' l' (tail rest) = continue l' (tail rest)) →
  loop_body env' continue' l opt rest = loop_body env continue l opt rest.
Proof.
  intros Hopen Hrest Htail. unfold loop_body. rewrite Hopen.
  destruct rest as [|v rest']; simpl in Htail; cbv iota.
  - repeat rewrite Hrest. reflexivity.
  - destruct (open_read env (skip_first v));
      repeat first [rewrite Hrest | rewrite Htail]; reflexivity.
Qed.

Lemma parse_args_open_read env env' args : ∀ l,
  open_read env' = open_read env →
  parse_args env' l args = parse_args env l args.
Proof.
  induction args as [|a|a b rest IH1 IH2] using list_ind2; intros l Hopen.
  - done.
  - simpl. by apply loop_body_open_read.
  - simpl. apply loop_body_open_read; [done|intros; by apply IH2|intros; by apply IH1].
Qed.

(** X10.  Without [-pkcs12file] the certificate step is skipped: no
    certificate becomes the TLS configuration and none is asked for (a
    [-pkcs12password] alone does nothing, and the run is the same whatever
    the TLS library would answer), and every run that returns 1 has printed
    the usage text. *)
Theorem no_certificate_without_option (env : Env) (args : list string) :
  "-pkcs12file" ∉ args →
  installed_certificate env (locals_at_end (parse_args env initial_locals args)) = None ∧
  load_certificate env (locals_at_end (parse_args env initial_locals args)) = None ∧
  (∀ env', open_read env' = open_read env → absolutePath env' = absolutePath env →
           main env' args = main env args) ∧
  ∀ err, main env args = Exit 1 err → Usage ∈ err.
Proof.
  intros Hno. pose proof (pkcs12File_kept env args initial_locals Hno) as Hk.
  assert (Hcert : load_certificate env
                    (locals_at_end (parse_args env initial_locals args)) = None).
  { unfold load_certificate. by rewrite Hk. }
  split_and!; [|done|..].
  - unfold installed_certificate. by rewrite Hk.
  - intros env' Hopen Habs. unfold main.
    rewrite (parse_args_open_read env env' args initial_locals Hopen).
    destruct (parse_args env initial_locals args) as [l|l code e]; [|done].
    simpl in Hk, Hcert. destruct (fileName l) as [wsdl|]; [|done].
    destruct (both_combined l); [done|]. rewrite Hcert.
    unfold load_certificate. rewrite Hk. simpl.
    unfold configure. by rewrite Habs.
  - intros err. unfold main.
    destruct (parse_args env initial_locals args) as [l|l code e] eqn:Hp.
    + simpl in Hcert. rewrite Hcert.
      destruct (fileName l); [|intros [= <-]; by left].
      destruct (both_combined l); [intros [= <-]; by left|done].
    + intros [= -> ->].
      destruct (loop_return_cases env _ _ _ _ _ Hp) as [[_ ?]|[(? & _)|(? & _)]]; done.
Qed.

Lemma no_certificate_without_option_witness :
  installed_certificate accepted_certificate
    (locals_at_end
       (parse_args accepted_certificate initial_locals
          ["-pkcs12password"; "secret"; "service.wsdl"]))
  = None ∧
  installed_certificate accepted_certificate
    (locals_at_end
       (parse_args accepted_certificate initial_locals
          ["-pkcs12file"; "client.p12"; "-pkcs12password"; "secret"; "service.wsdl"]))
  = Some ("not a certificate", "secret") ∧
  main refused_certificate ["-pkcs12password"; "secret"; "service.wsdl"]
  = main accepted_certificate ["-pkcs12password"; "secret"; "service.wsdl"].
Proof.
  destruct (no_certificate_without_option accepted_certificate
              ["-pkcs12password"; "secret"; "service.wsdl"]) as (H1 & _ & H3 & _).
  { literal_not_in. }
  split; [exact H1|]. split; [reflexivity|].
  apply (H3 refused_certificate); reflexivity.
Defined.

(** X11.  A run that returns 1 without the usage text is one whose command
    line was complete and whose certificate could not be loaded: the file
    named by [-pkcs12file] could not be opened, or the TLS library refused
    it, in which case the hint printed depends on whether a password was
    given. *)
Theorem failure_without_usage_is_certificate
    (env : Env) (args : list string) (err : list Message) :
  main env args = Exit 1 err →
  Usage ∉ err →
  ∃ l, parse_args env initial_locals args = Finished l ∧
       is_Some (fileName l) ∧ both_combined l = false ∧
       pkcs12File l ≠ EmptyString ∧
       ((open_read env (pkcs12File l) = None ∧
         err = [CertificateOpenFailed (pkcs12File l)]) ∨
        (∃ cert, open_read env (pkcs12File l) = Some cert ∧
                 importPkcs12 env cert (pkcs12Password l) = false ∧
                 err = [CertificateNotLoaded (pkcs12File l);
                        if QString.isEmpty (pkcs12Password l)
                        then PasswordProtectedHint else WrongPasswordHint])).
Proof.
  unfold main. destruct (parse_args env initial_locals args) as [l|l code e] eqn:Hp.
  - destruct (fileName l) as [wsdl|] eqn:Hw.
    2:{ intros [= <-] Hno. destruct Hno. by left. }
    destruct (both_combined l) eqn:Hc.
    { intros [= <-] Hno. destruct Hno. by left. }
    unfold load_certificate.
    destruct (QString.isEmpty (pkcs12File l)) eqn:Hfile; [done|].
    intros Hexit _. exists l. split; [done|]. split; [by rewrite Hw|]. split; [done|].
    split; [by destruct (pkcs12File l)|].
    destruct (open_read env (pkcs12File l)) as [cert|].
    + destruct (importPkcs12 env cert (pkcs12Password l)) eqn:Himport; [done|].
      right. exists cert. split; [done|]. split; [done|].
      injection Hexit as <-. by destruct (QString.isEmpty (pkcs12Password l)).
    + left. split; [done|]. by injection Hexit as <-.
  - intros [= -> ->] Hno.
    destruct (loop_return_cases env _ _ _ _ _ Hp) as [[_ ?]|[(? & _)|(? & _)]]; done.
Qed.

Lemma failure_without_usage_is_certificate_witness :
  ∃ l, parse_args refused_certificate initial_locals
         ["-pkcs12file"; "client.p12"; "service.wsdl"] = Finished l ∧
       pkcs12File l ≠ EmptyString.
Proof.
  destruct (failure_without_usage_is_certificate refused_certificate
              ["-pkcs12file"; "client.p12"; "service.wsdl"]
              [CertificateNotLoaded "client.p12"; PasswordProtectedHint] eq_refl)
    as (l & Hl & _ & _ & Hfile & _).
  - literal_not_in.
  - exists l. split; [exact Hl|exact Hfile].
Defined.

(** ** More about mapping files and file names *)

Section Text.
Import QString QStringFacts.

Lemma app_cons (c : ascii) (s t : string) : String c s +:+ t = String c (s +:+ t).
Proof. reflexivity. Qed.

Lemma trim_left_space p s :
all_space p = true → QByteArray.trim_left (p +:+ s) = QByteArray.trim_left s.
Proof.
induction p as [|c p IH]; [done|]. simpl all_space.
intros [Hc Hp]%andb_true_iff. rewrite app_cons. simpl. rewrite Hc. by apply IH.
Qed.

Lemma trim_left_all_space p : all_space p = true → QByteArray.trim_left p = EmptyString.
Proof.
induction p as [|c p IH]; [done|]. simpl.
intros [Hc Hp]%andb_true_iff. rewrite Hc. by apply IH.
Qed.

Lemma trim_right_all_space p : all_space p = true → QByteArray.trim_right p = EmptyString.
Proof.
induction p as [|c p IH]; [done|]. simpl.
intros [Hc Hp]%andb_true_iff. by rewrite (IH Hp), Hc.
Qed.

Lemma trim_right_space s p :
all_space p = true → QByteArray.trim_right (s +:+ p) = QByteArray.trim_right s.
Proof.
intros Hp. induction s as [|c s IH].
- by apply trim_right_all_space.
- rewrite app_cons. simpl. by rewrite IH.
Qed.

Lemma trimmed_space p1 s p2 :
all_space p1 = true → all_space p2 = true →
QByteArray.trimmed (p1 +:+ s +:+ p2) = QByteArray.trimmed s.
Proof.
intros H1 H2. unfold QByteArray.trimmed. rewrite trim_left_space by done.
induction s as [|c s IH].
- change (EmptyString +:+ p2) with p2. by rewrite trim_left_all_space.
- rewrite app_cons. simpl. destruct (QByteArray.isspace c); [done|].
  rewrite <- app_cons. by apply trim_right_space.
Qed.

Lemma lines_cons c s :
QIODevice.lines (String c s) =
  if Ascii.eqb c "010" then String c EmptyString :: QIODevice.lines s
  else match QIODevice.lines s with
       | [] => [String c EmptyString]
       | ln :: lns => String c ln :: lns
       end.
Proof. reflexivity. Qed.

Lemma lines_nil s : QIODevice.lines s = [] → s = EmptyString.
Proof.
destruct s as [|c s]; [done|]. simpl.
destruct (Ascii.eqb c "010"); [done|]. by destruct (QIODevice.lines s).
Qed.

Lemma lines_app a b :
complete_lines a = true →
QIODevice.lines (a +:+ b) = QIODevice.lines a ++ QIODevice.lines b.
Proof.
induction a as [|c a IH]; [done|]. intros Hc. rewrite app_cons.
destruct a as [|c' a'].
- simpl in Hc. simpl. change (EmptyString +:+ b) with b. by rewrite Hc.
- specialize (IH Hc).
  rewrite (lines_cons c (String c' a' +:+ b)), (lines_cons c (String c' a')), IH.
  destruct (Ascii.eqb c "010"); [done|].
  destruct (QIODevice.lines (String c' a')) as [|ln lns] eqn:Hl; [|done].
  by apply lines_nil in Hl.
Qed.

Lemma lines_single line :
contains "010" line = false →
QIODevice.lines (line +:+ String "010" EmptyString) = [line +:+ String "010" EmptyString].
Proof.
induction line as [|c line IH]; [done|]. simpl contains.
intros [Hc Hline]%orb_false_iff. rewrite app_cons. simpl. rewrite Hc, (IH Hline). done.
Qed.

Lemma complete_lines_newline line :
complete_lines (line +:+ String "010" EmptyString) = true.
Proof.
induction line as [|c line IH]; [done|]. rewrite app_cons.
simpl. destruct (line +:+ String "010" EmptyString) eqn:E; [by destruct line|done].
Qed.

Lemma fileName_no_directory path : contains "/" (QFileInfo.fileName path) = false.
Proof.
unfold QFileInfo.fileName. destruct (contains "/" path) eqn:Hp.
- destruct (last_sep_exists _ _ Hp) as (u & c & -> & Hc).
  by rewrite section_after_last.
- by rewrite section_last_none.
Qed.

Lemma section_round_trip sep s :
contains sep s = true →
section sep 0 (-2) s +:+ String sep (section sep (-1) (-1) s) = s ∧
contains sep (section sep (-1) (-1) s) = false.
Proof.
intros (u & c & -> & Hc)%last_sep_exists.
by rewrite section_before_last, section_after_last.
Qed.

End Text.

(** X12.  White space around a mapping-file line does not matter: the line
    stores the same entry with any indentation and any trailing blanks,
    carriage return or line feed. *)
Theorem mapping_line_ignores_white_space
    (nsmapping : gmap string string) (before line after : string) :
  all_space before = true → all_space after = true →
  add_mapping_line nsmapping (before +:+ line +:+ after) = add_mapping_line nsmapping line.
Proof. intros H1 H2. unfold add_mapping_line. by rewrite trimmed_space. Qed.

Lemma mapping_line_ignores_white_space_witness :
  add_mapping_line ∅ ("  " +:+ "urn:orders=ord" +:+ String "013" (String "010" EmptyString))
  = add_mapping_line ∅ "urn:orders=ord".
Proof.
  apply (mapping_line_ignores_white_space ∅ "  " "urn:orders=ord"
           (String "013" (String "010" EmptyString))); reflexivity.
Defined.

(** X13.  Reading two mapping files one after the other gives the mapping
    of their concatenation, provided the first ends with a complete line;
    so two [-namespaceMapping @file] options in a row can be replaced by one
    for the concatenated file. *)
Theorem mapping_files_concatenate
    (env : Env) (l : Locals) (first second : string) (rest : list string)
    (file1 file2 file12 : string) :
  complete_lines first = true →
  open_read env file1 = Some first →
  open_read env file2 = Some second →
  open_read env file12 = Some (first +:+ second) →
  read_mapping_file (first +:+ second) (nsmapping l)
    = read_mapping_file second (read_mapping_file first (nsmapping l)) ∧
  parse_args env l ("-namespaceMapping" :: String "@" file1 ::
                    "-namespaceMapping" :: String "@" file2 :: rest)
    = parse_args env l ("-namespaceMapping" :: String "@" file12 :: rest).
Proof.
  intros Hc H1 H2 H12.
  assert (Heq : read_mapping_file (first +:+ second) (nsmapping l)
                = read_mapping_file second (read_mapping_file first (nsmapping l))).
  { unfold read_mapping_file. by rewrite lines_app, foldl_app. }
  split; [done|].
  simpl. unfold loop_body. simpl. rewrite H1, H12. simpl. unfold loop_body. simpl.
  rewrite H2, Heq. done.
Qed.

Lemma mapping_files_concatenate_witness :
  parse_args mapping_files initial_locals
    ["-namespaceMapping"; "@a.map"; "-namespaceMapping"; "@b.map"; "service.wsdl"]
  = parse_args mapping_files initial_locals
      ["-namespaceMapping"; "@ab.map"; "service.wsdl"].
Proof.
  apply (mapping_files_concatenate mapping_files initial_locals
           ("urn:a=a" +:+ String "010" EmptyString) "urn:b=b" ["service.wsdl"]
           "a.map" "b.map" "ab.map"); reflexivity.
Defined.

(** X14.  A comment line, or any line without [=], can be put between two
    lines of a mapping file without changing the mapping read from it. *)
Theorem comment_line_changes_nothing
    (nsmapping : gmap string string) (above line below : string) :
  complete_lines above = true →
  QString.contains "010" line = false →
  QString.startsWith "#" (QByteArray.trimmed line) = true ∨
    QString.contains "=" (QByteArray.trimmed line) = false →
  read_mapping_file (above +:+ (line +:+ String "010" EmptyString) +:+ below) nsmapping
    = read_mapping_file (above +:+ below) nsmapping.
Proof.
  intros Habove Hline Hskip. unfold read_mapping_file.
  rewrite (lines_app above ((line +:+ String "010" EmptyString) +:+ below)) by done.
  rewrite (lines_app (line +:+ String "010" EmptyString) below)
    by apply complete_lines_newline.
  rewrite (lines_app above below) by done.
  rewrite lines_single by done. rewrite !foldl_app. simpl. f_equal.
  assert (Htrim : QByteArray.trimmed (line +:+ String "010" EmptyString)
                  = QByteArray.trimmed line).
  { by apply (trimmed_space EmptyString line (String "010" EmptyString)). }
  apply add_mapping_line_no_entry. intros uri code (Hhash & Heq & _).
  rewrite Htrim in Hhash, Heq. destruct Hskip as [Hs|Hs]; [congruence|].
  by rewrite Heq, QStringFacts.contains_app in Hs.
Qed.

Lemma comment_line_changes_nothing_witness :
  read_mapping_file
    (("urn:a=a" +:+ String "010" EmptyString) +:+
     ("  # codes for billing" +:+ String "010" EmptyString) +:+ "urn:b=b") ∅
  = read_mapping_file (("urn:a=a" +:+ String "010" EmptyString) +:+ "urn:b=b") ∅.
Proof.
  apply (comment_line_changes_nothing ∅ ("urn:a=a" +:+ String "010" EmptyString)
           "  # codes for billing" "urn:b=b"); [reflexivity|reflexivity|].
  left. reflexivity.
Defined.

(** X15.  Splitting a literal mapping that contains [=] loses nothing: the
    stored URI, an [=] and the stored code give back the argument, and the
    stored code contains no [=]. *)
Theorem literal_mapping_round_trip (nsmapping : gmap string string) (mapping : string) :
  QString.contains "=" mapping = true →
  ∃ uri code,
    add_literal_mapping nsmapping mapping = <[uri := code]> nsmapping ∧
    uri +:+ String "=" code = mapping ∧
    QString.contains "=" code = false.
Proof.
  intros Hm.
  exists (QString.section "=" 0 (-2) mapping), (QString.section "=" (-1) (-1) mapping).
  split; [done|]. by apply section_round_trip.
Qed.

Lemma literal_mapping_round_trip_witness :
  ∃ uri code,
    add_literal_mapping ∅ "http://example.org/a?x=1=exa" = <[uri := code]> ∅ ∧
    uri +:+ String "=" code = "http://example.org/a?x=1=exa" ∧
    QString.contains "=" code = false.
Proof.
  apply (literal_mapping_round_trip ∅ "http://example.org/a?x=1=exa"). reflexivity.
Defined.

(** X16.  The header and implementation names that [main] derives from the
    output file carry no directory: whenever a header is to be generated
    its name contains no [/], and so for the implementation. *)
Theorem generated_names_have_no_directory (env : Env) (args : list string) (s : Settings.t) :
  main env args = Exec s →
  (Settings.generateHeader s = true →
     QString.contains "/" (Settings.headerFileName s) = false) ∧
  (Settings.generateImplementation s = true →
     QString.contains "/" (Settings.implementationFileName s) = false).
Proof.
  intros (l & wsdl & _ & _ & ->)%main_exec_settings. unfold configure.
  destruct (both l), (impl l); simpl; split; intros Hgen; try done;
    by rewrite ?contains_append, ?fileName_no_directory.
Qed.

Lemma generated_names_have_no_directory_witness :
  QString.contains "/"
    (Settings.headerFileName (configure no_files both_run_locals "service.wsdl")) = false.
Proof.
  destruct (generated_names_have_no_directory no_files
              ["-both"; "out/soap"; "service.wsdl"]
              (configure no_files both_run_locals "service.wsdl") eq_refl) as [H _].
  apply H. reflexivity.
Defined.

(** X17.  A strategy named by [-optional-element-type] is the one used
    unless a later option names another: values that are no strategy names,
    given later, do not reset it. *)
Theorem named_strategy_is_used
    (env : Env) (pre : list string) (l1 : Locals) (rest : list string) :
  parse_args env initial_locals pre = Finished l1 →
  (∀ v, v ∈ optional_element_type_names → v ∉ rest) →
  (∀ s, main env (pre ++ "-optional-element-type" :: "raw-pointer" :: rest) = Exec s →
        Settings.optionalElementType s = Settings.ERawPointer) ∧
  (∀ s, main env (pre ++ "-optional-element-type" :: "boost-optional" :: rest) = Exec s →
        Settings.optionalElementType s = Settings.EBoostOptional) ∧
  (∀ s, main env (pre ++ "-optional-element-type" :: "std-optional" :: rest) = Exec s →
        Settings.optionalElementType s = Settings.EStdOptional).
Proof.
  intros Hpre Hrest.
  split_and!; intros s (l & wsdl & Hl & _ & ->)%main_exec_settings;
    rewrite (parse_args_app env _ _ _ _ Hpre) in Hl.
  - pose proof (optionalElementType_kept env rest
                  (set_optionalElementType Settings.ERawPointer l1) Hrest) as Hk.
    change (parse_args env l1 ("-optional-element-type" :: "raw-pointer" :: rest))
      with (parse_args env (set_optionalElementType Settings.ERawPointer l1) rest) in Hl.
    rewrite Hl in Hk. unfold configure. by destruct (both l), (impl l).
  - pose proof (optionalElementType_kept env rest
                  (set_optionalElementType Settings.EBoostOptional l1) Hrest) as Hk.
    change (parse_args env l1 ("-optional-element-type" :: "boost-optional" :: rest))
      with (parse_args env (set_optionalElementType Settings.EBoostOptional l1) rest) in Hl.
    rewrite Hl in Hk. unfold configure. by destruct (both l), (impl l).
  - pose proof (optionalElementType_kept env rest
                  (set_optionalElementType Settings.EStdOptional l1) Hrest) as Hk.
    change (parse_args env l1 ("-optional-element-type" :: "std-optional" :: rest))
      with (parse_args env (set_optionalElementType Settings.EStdOptional l1) rest) in Hl.
    rewrite Hl in Hk. unfold configure. by destruct (both l), (impl l).
Qed.

Lemma named_strategy_is_used_witness :
  Settings.optionalElementType
    (configure no_files
       (set_fileName (Some "service.wsdl")
          (set_optionalElementType Settings.EStdOptional initial_locals))
       "service.wsdl")
  = Settings.EStdOptional.
Proof.
  destruct (named_strategy_is_used no_files [] initial_locals
              ["-optional-element-type"; "qt-optional"; "service.wsdl"] eq_refl)
    as (_ & _ & H).
  - intros v Hv. unfold optional_element_type_names in Hv.
    repeat (apply elem_of_cons in Hv as [->|Hv]; [literal_not_in|]).
    by apply elem_of_nil in Hv.
  - apply H. reflexivity.
Defined.

(** X18.  A mapping file never stores an empty URI or an empty code (a
    literal mapping can): what it stores has a non-empty URI and a non-empty
    code without [=], and the entry of the empty URI is left as it was. *)
Theorem mapping_file_stores_no_empty_part
    (content : string) (nsmapping : gmap string string) :
  read_mapping_file content nsmapping !! EmptyString = nsmapping !! EmptyString ∧
  ∀ uri code,
    read_mapping_file content nsmapping !! uri = Some code →
    nsmapping !! uri = Some code ∨
    (uri ≠ EmptyString ∧ code ≠ EmptyString ∧ QString.contains "=" code = false).
Proof.
  split.
  - destruct (read_mapping_file content nsmapping !! EmptyString) as [c|] eqn:Hr.
    + apply foldl_add_mapping_line in Hr
        as [(_ & line & _ & _ & (_ & _ & _ & Hne & _) & _)|[Hm _]]; done.
    + destruct (nsmapping !! EmptyString) as [c|] eqn:Hm; [|done].
      pose proof (read_mapping_file_keeps content nsmapping EmptyString) as Hk.
      rewrite Hm, Hr in Hk. by destruct Hk.
  - intros uri code Hr.
    apply foldl_add_mapping_line in Hr
      as [(_ & line & _ & _ & (_ & _ & Hc & Hu & Hcode) & _)|[Hm _]]; [by right|by left].
Qed.

Lemma mapping_file_stores_no_empty_part_witness :
  read_mapping_file "=code" (∅ : gmap string string) !! EmptyString = None ∧
  read_mapping_file "urn:a=" (∅ : gmap string string) !! "urn:a" = None.
Proof.
  split.
  - by rewrite (proj1 (mapping_file_stores_no_empty_part "=code" ∅)).
  - destruct (read_mapping_file "urn:a=" ∅ !! "urn:a") as [c|] eqn:Hr; [|done].
    by destruct (proj2 (mapping_file_stores_no_empty_part "urn:a=" ∅) _ _ Hr)
      as [Hm|(_ & Hc & _)]; [|vm_compute in Hr; congruence].
Defined.
